(** * spotify2tidal: the track-matching and reconciliation engine of [sync.py]

    A shallow embedding of [sync.py] and the properties of its normalizer
    ([simplify]), matcher ([match]), resolver ([tidal_search]), sync
    pipeline ([call_async], [sync_playlist]) and playlist reconciler
    ([sync_list]).

    Python values are modelled as follows.
    - A [str] is the list of its code points ([pystr]).
    - [re] patterns are terms of a small regular-expression language with
      the backtracking semantics of the library.
    - A [float] is the rational number the double stands for, every
      operation being rounded to the nearest double.
    - [unidecode], [thefuzz] and the two remote services are libraries the
      program calls: the transliteration table, the three similarity scores,
      the catalogue search, the playlists and the answer of the destination
      service to a request to add tracks are parameters of the definitions
      that use them.
    - An exception is a [Raise] result; a function that can raise returns a
      [result].
    - The worker pool is given the order in which its tasks complete. *)

From Stdlib Require Import NArith ZArith QArith Qabs Qround Qpower Ascii String List Sorted Lia Lqa.
From Stdlib Require Floats Uint63.
From stdpp Require Import base option list gmap.

Local Open Scope N_scope.

(** ** Text *)

(** A Python string: its code points, in order. *)
Definition pystr : Type := list N.

(** The code points of an ASCII literal of the source. *)
Definition str (s : string) : pystr := map N_of_ascii (list_ascii_of_string s).
Definition chr (a : ascii) : N := N_of_ascii a.
Global Arguments str : simpl never.
Global Arguments chr : simpl never.

Definition LF : N := 10.

(** [unidecode(s)]: a string of ASCII characters is returned as it is;
    otherwise every character above U+007F is replaced by its entry in the
    library's transliteration table (the empty string when it has none), and
    ASCII characters are kept.  The table itself is data of the library; its
    entries are ASCII text. *)
Definition is_ascii (c : N) : bool := c <? 128.

Definition unidecode (table : N -> pystr) (s : pystr) : pystr :=
  if forallb is_ascii s then s
  else flat_map (fun c => if is_ascii c then [c] else table c) s.

(** [s.lower()] on the output of [unidecode]: A-Z go to a-z. *)
Definition lower_char (c : N) : N :=
  if (65 <=? c) && (c <=? 90) then c + 32 else c.

Definition lower (s : pystr) : pystr := map lower_char s.

(** ** Scanning with replacement

    [str.replace] and [re.sub] both walk the string left to right; where the
    searched text matches at the current position, the replacement is emitted
    and the walk resumes after the match, otherwise the current character is
    kept.  [find s] gives the length of the match at the head of [s];
    [skip] counts the characters of a match still to be passed over.  (Every
    searched text of [simplify] is non-empty, so a match is at least one
    character long.) *)
Fixpoint scan (find : pystr -> option nat) (repl : pystr) (skip : nat) (s : pystr) : pystr :=
  match s with
  | [] => []
  | c :: s' =>
      match skip with
      | S k => scan find repl k s'
      | O =>
          match find s with
          | Some (S k) => repl ++ scan find repl k s'
          | _ => c :: scan find repl 0 s'
          end
      end
  end.

Fixpoint starts_with (old s : pystr) : bool :=
  match old, s with
  | [], _ => true
  | a :: old', c :: s' => (a =? c) && starts_with old' s'
  | _ :: _, [] => false
  end.

Definition find_literal (old : pystr) (s : pystr) : option nat :=
  if starts_with old s then Some (length old) else None.

(** [s.replace(old, new)] *)
Definition replace (old new s : pystr) : pystr := scan (find_literal old) new 0 s.

(** ** Regular expressions

    The fragment of Python's [re] syntax the three patterns of [simplify]
    use, with its backtracking semantics: alternatives are tried left to
    right, [?] and [*] are greedy. *)
Inductive atom : Type :=
| Lit (c : N)                                  (* a literal character *)
| Dot                                          (* [.]: any character but a line feed *)
| Class (negated : bool) (items : list (N * N)). (* [[...]] and [[^...]], as ranges *)

Definition atom_matches (a : atom) (c : N) : bool :=
  match a with
  | Lit d => c =? d
  | Dot => negb (c =? LF)
  | Class negated items =>
      xorb negated (existsb (fun '(lo, hi) => (lo <=? c) && (c <=? hi)) items)
  end.

Inductive pattern : Type :=
| Eps
| One (a : atom)
| Cat (r1 r2 : pattern)
| Alt (r1 r2 : pattern)
| Opt (r : pattern)
| Star (a : atom).

(** All the ways [a*] can match at the head of [s], longest first, each given
    by the text left after it. *)
Fixpoint star_atom (a : atom) (s : pystr) : list pystr :=
  match s with
  | [] => [[]]
  | c :: s' => if atom_matches a c then star_atom a s' ++ [s] else [s]
  end.

(** All the ways [r] can match at the head of [s], in the order the
    backtracking matcher tries them, each given by the text left after it. *)
Fixpoint run (r : pattern) (s : pystr) : list pystr :=
  match r with
  | Eps => [s]
  | One a =>
      match s with
      | c :: s' => if atom_matches a c then [s'] else []
      | [] => []
      end
  | Cat r1 r2 => run r1 s ≫= run r2
  | Alt r1 r2 => run r1 s ++ run r2 s
  | Opt r => run r s ++ [s]
  | Star a => star_atom a s
  end.

(** The match the engine reports at the head of [s]: the first one. *)
Definition match_len (r : pattern) (s : pystr) : option nat :=
  match run r s with
  | rest :: _ => Some (length s - length rest)%nat
  | [] => None
  end.

(** [re.compile(r).sub(repl, s)] *)
Definition re_sub (r : pattern) (repl s : pystr) : pystr := scan (match_len r) repl 0 s.

(** The literal text [w] as a pattern. *)
Definition lit_of (w : pystr) : pattern :=
  foldr (fun c r => Cat (One (Lit c)) r) Eps w.

Definition lit (s : string) : pattern := lit_of (str s).

Declare Scope pattern_scope.
Delimit Scope pattern_scope with pat.
Bind Scope pattern_scope with pattern.
Notation "r1 <.> r2" := (Cat r1 r2) (at level 62, right associativity) : pattern_scope.
Notation "r1 <|> r2" := (Alt r1 r2) (at level 66, right associativity) : pattern_scope.

(** ** The normalizer: [simplify] *)

Definition replacements : list (pystr * pystr) :=
  [ (str " x ", str " ");
    (str " vs ", str " ");
    (str " - ", str " ") ].

(** ['(original mix|extended mix|radio edit|mixed|remastered|version)'] *)
Definition re_edition : pattern :=
  (lit "original mix" <|> lit "extended mix" <|> lit "radio edit" <|> lit "mixed"
   <|> lit "remastered" <|> lit "version")%pat.

(** [(ft.|feat.|prod.)], the markers of the second alternative. *)
Definition re_marker : pattern :=
  (lit "ft" <.> One Dot <|> lit "feat" <.> One Dot <|> lit "prod" <.> One Dot)%pat.

(** [(ft.|feat.|prod.|[(]with)], the markers of the first alternative. *)
Definition re_marker_with : pattern :=
  (lit "ft" <.> One Dot <|> lit "feat" <.> One Dot <|> lit "prod" <.> One Dot
   <|> One (Class false [(chr "(", chr "(")]) <.> lit "with")%pat.

(** ['[(]?(ft.|feat.|prod.|[(]with).*\\)|(ft.|feat.|prod.).*']: a clause that
    runs up to a closing parenthesis, or else one that is left open. *)
Definition re_feat_closed : pattern :=
  (Opt (One (Class false [(chr "(", chr "(")])) <.> re_marker_with <.> Star Dot
   <.> One (Lit (chr ")")))%pat.

Definition re_feat_open : pattern := (re_marker <.> Star Dot)%pat.

Definition re_feat : pattern := (re_feat_closed <|> re_feat_open)%pat.

(** [r'[^a-z0-9$!&?.\'\- ]'] *)
Definition allowed : list (N * N) :=
  [ (chr "a", chr "z"); (chr "0", chr "9"); (chr "$", chr "$"); (chr "!", chr "!");
    (chr "&", chr "&"); (chr "?", chr "?"); (chr ".", chr "."); (chr "'", chr "'");
    (chr "-", chr "-"); (chr " ", chr " ") ].

Definition re_charset : pattern := One (Class true allowed).

Definition regex : list (pattern * pystr) :=
  [ (re_edition, []); (re_feat, []); (re_charset, []) ].

Definition simplify (table : N -> pystr) (input_string : pystr) : pystr :=
  let result := lower (unidecode table input_string) in
  let result := fold_left (fun result '(k, v) => replace k v result) replacements result in
  let result := fold_left (fun result '(k, v) => re_sub k v result) regex result in
  result.

(** The text that reaches the featuring-clause pattern: transliterated,
    lowercased, join markers replaced, edition words removed. *)
Definition before_feat (table : N -> pystr) (input_string : pystr) : pystr :=
  re_sub re_edition []
    (replace (str " - ") (str " ")
       (replace (str " vs ") (str " ")
          (replace (str " x ") (str " ") (lower (unidecode table input_string))))).

(** The searched text occurs somewhere in [s]. *)
Fixpoint found (find : pystr -> option nat) (s : pystr) : bool :=
  match s with
  | [] => false
  | _ :: s' =>
      match find s with
      | Some (S _) => true
      | _ => found find s'
      end
  end.

(** A text on which the join-marker, edition-word and featuring-clause steps
    have nothing to do. *)
Definition settled (s : pystr) : bool :=
  forallb (fun '(k, _) => negb (found (find_literal k) s)) replacements
  && forallb (fun k => negb (found (match_len k) s)) [re_edition; re_feat].

(** The substitutions of [simplify] in the order they run, each as the
    search and the replacement handed to [scan]. *)
Definition steps : list ((pystr -> option nat) * pystr) :=
  map (fun '(k, v) => (find_literal k, v)) replacements
  ++ map (fun '(k, v) => (match_len k, v)) regex.

(** Every match is within the text and longer than its replacement. *)
Definition shrinking (find : pystr -> option nat) (repl : pystr) : Prop :=
  forall u k, find u = Some (S k) -> (S k <= length u /\ length repl <= k)%nat.

Definition allowed_char (c : N) : bool :=
  existsb (fun '(lo, hi) => (lo <=? c) && (c <=? hi)) allowed.

(** ** Floating-point numbers

    A Python [float] is a double: every operation returns the double nearest
    to its exact result, ties going to the even significand.  A finite
    double is modelled by the rational number it stands for; the exponent
    range is bounded below (subnormal numbers) and taken unbounded above, no
    computation of the program coming near the largest double. *)

(** The integer nearest to [x], ties to even. *)
Definition round_half_even (x : Q) : Z :=
  let f := Qfloor x in
  match Qcompare (x - inject_Z f) (1 # 2) with
  | Lt => f
  | Gt => (f + 1)%Z
  | Eq => if Z.even f then f else (f + 1)%Z
  end.

(** The floor of the binary logarithm of a positive [x]. *)
Definition ilog2 (x : Q) : Z :=
  let l := (Z.log2 (Qnum x) - Z.log2 (Zpos (Qden x)))%Z in
  if Qle_bool (2 ^ l) x then l else (l - 1)%Z.

(** The exponent of the last bit of the 53-bit significand of [x]; the last
    bit of a subnormal number is 2^-1074. *)
Definition ulp_exp (x : Q) : Z := Z.max (ilog2 (Qabs x) - 52) (-1074).

(** The double nearest to [x]. *)
Definition binary64 (x : Q) : Q :=
  (inject_Z (round_half_even (x / 2 ^ ulp_exp x)) * 2 ^ ulp_exp x)%Q.

(** The same difference computed with the kernel's primitive floats (IEEE
    binary64), for non-negative integers below 2^62: a check of [binary64]
    against an implementation of the standard. *)
Definition Q_of_float (f : PrimFloat.float) : Q :=
  match FloatOps.Prim2SF f with
  | SpecFloat.S754_finite s m e => ((if s then -1 else 1) * inject_Z (Zpos m) * 2 ^ e)%Q
  | _ => 0%Q
  end.

Definition primitive_difference (seconds ms : Z) : Q :=
  Q_of_float
    (PrimFloat.abs
       (PrimFloat.sub (PrimFloat.of_uint63 (Uint63.of_Z seconds))
          (PrimFloat.div (PrimFloat.of_uint63 (Uint63.of_Z ms))
             (PrimFloat.of_uint63 (Uint63.of_Z 1000))))).

Definition modelled_difference (seconds ms : Z) : Q :=
  Qabs (binary64 (binary64 (inject_Z seconds) - binary64 (inject_Z ms / 1000))).

(** ** Tracks, libraries and exceptions *)

Module Spotify.
(** A track of the source playlist: [track['name']],
    [track['artists'][i]['name']], [track['duration_ms']] and
    [track['album']['name']]. *)
Record track : Type := {
  name : pystr;
  artists : list pystr;
  duration_ms : Z;
  album : pystr
}.
End Spotify.

Module Tidal.
(** A track of the destination catalogue: [track.id], [track.name],
    [track.artists[i].name], [track.duration] (seconds) and
    [track.album.name]. *)
Record track : Type := {
  id : N;
  name : pystr;
  artists : list pystr;
  duration : Z;
  album : pystr
}.
End Tidal.

Module SpotifyPlaylist.
(** A playlist of the source service: [playlist['name']],
    [playlist['description']] and the pages of entries the service serves
    for it, in cursor order, an unavailable track being [None]. *)
Record playlist : Type := {
  name : pystr;
  description : pystr;
  pages : list (list (option Spotify.track))
}.
End SpotifyPlaylist.

Module TidalPlaylist.
(** A playlist of the destination service: [playlist.name], its description
    and the identifiers of its tracks, in order. *)
Record playlist : Type := {
  name : pystr;
  description : pystr;
  tracks : list N
}.
End TidalPlaylist.

(** What the program takes from [unidecode] and [thefuzz]: the
    transliteration table and the three similarity scores (0 to 100). *)
Record libraries : Type := {
  table : N -> pystr;
  partial_ratio : pystr -> pystr -> Z;
  token_set_ratio : pystr -> pystr -> Z;
  ratio : pystr -> pystr -> Z
}.

Inductive exn : Type :=
| IndexError
| ValueError
| SpotifyException
| HTTPError (status : N).

Inductive result (A : Type) : Type :=
| Ok (a : A)
| Raise (e : exn).
Global Arguments Ok {A} a.
Global Arguments Raise {A} e.

Definition bind_result {A B} (r : result A) (k : A -> result B) : result B :=
  match r with
  | Ok a => k a
  | Raise e => Raise e
  end.

Notation "x <-- r ;; k" := (bind_result r (fun x => k))
  (at level 100, r at next level, right associativity, only parsing).

(** The destination service as the program sees it: the answer of
    [session.search(query)['tracks']] to every query, the playlists of the
    user, by playlist identifier, and what the service makes of the request
    [playlist.add] sends (add the tracks at the end of the playlist,
    duplicates skipped, with the library's default limit on the number of
    items): from the tracks the playlist holds and the tracks requested, the
    tracks the playlist holds afterwards, or the error the service
    answers. *)
Record session : Type := {
  search : pystr -> result (list Tidal.track);
  add_tracks : list N -> list N -> result (list N);
  playlists : gmap N TidalPlaylist.playlist
}.

(** The tracks of a playlist of the destination service. *)
Definition playlist_tracks (tidal_session : session) (playlist_id : N) : option (list N) :=
  TidalPlaylist.tracks <$> playlists tidal_session !! playlist_id.

(** The source service: the answer of [spotify_session.playlist(spotify_id)]
    to every identifier. *)
Definition spotify := pystr -> result SpotifyPlaylist.playlist.

(** ** The matcher *)

Section Engine.
Variable lib : libraries.

Definition name_match (tidal_track : Tidal.track) (spotify_track : Spotify.track) : bool :=
  (90 <=? partial_ratio lib (simplify (table lib) (Tidal.name tidal_track))
                            (simplify (table lib) (Spotify.name spotify_track)))%Z.

(** [result += artist.name + ' '] for every artist, then [simplify]. *)
Definition get_artists (names : list pystr) : pystr :=
  simplify (table lib) (fold_left (fun result name => result ++ name ++ str " ") names []).

Definition artist_match (tidal_track : Tidal.track) (spotify_track : Spotify.track) : bool :=
  (80 <=? token_set_ratio lib (get_artists (Tidal.artists tidal_track))
                              (get_artists (Spotify.artists spotify_track)))%Z.

Definition Qltb (x y : Q) : bool := negb (Qle_bool y x).

(** [abs(tidal_track.duration - spotify_track['duration_ms'] / 1000) < tolerance]:
    the quotient of the two integers is a [float], the integer duration is
    converted to a [float] for the subtraction, and the difference is a
    [float]; [abs] and the comparison with the integer [tolerance] are
    exact. *)
Definition duration_match (tidal_track : Tidal.track) (spotify_track : Spotify.track)
    (tolerance : Z) : bool :=
  Qltb (Qabs (binary64 (binary64 (inject_Z (Tidal.duration tidal_track))
                        - binary64 (inject_Z (Spotify.duration_ms spotify_track) / 1000))))
       (inject_Z tolerance).

Definition album_match (tidal_track : Tidal.track) (spotify_track : Spotify.track) : bool :=
  (90 <=? ratio lib (simplify (table lib) (Tidal.album tidal_track))
                    (simplify (table lib) (Spotify.album spotify_track)))%Z.

Definition match_ (tidal_track : Tidal.track) (spotify_track : Spotify.track) : bool :=
  let name_matching := name_match tidal_track spotify_track in
  let artist_matching := artist_match tidal_track spotify_track in
  let duration_matching := duration_match tidal_track spotify_track 2 in
  let album_matching := album_match tidal_track spotify_track in
  (3 <=? count_occ Bool.bool_dec
           [name_matching; artist_matching; duration_matching; album_matching] true)%nat.

(** ** The resolver *)

(** The query of [tidal_search]; [spotify_track['artists'][0]] raises when
    the track has no artist. *)
Definition search_query (spotify_track : Spotify.track) : result pystr :=
  let query := simplify (table lib) (Spotify.name spotify_track) in
  if (length query <=? 25)%nat then
    match Spotify.artists spotify_track with
    | artist :: _ =>
        Ok (simplify (table lib) artist ++ str " "
            ++ simplify (table lib) (Spotify.name spotify_track))
    | [] => Raise IndexError
    end
  else Ok query.

(** The first track of the search result that matches, [None] when the
    loop ends without one. *)
Definition tidal_search (spotify_track : Spotify.track) (tidal_session : session)
    : result (option Tidal.track) :=
  query <-- search_query spotify_track ;;
  tracks <-- search tidal_session query ;;
  Ok (List.find (fun track => match_ track spotify_track) tracks).

(** ** The sync pipeline *)

(** [playlist.add(track_ids)]: the library refuses an empty list with
    [ValueError] before any request; otherwise it sends the request, and the
    playlist holds what the service makes of it.
    [session.playlist(playlist_id)] fails for an unknown playlist. *)
Definition playlist_add (tidal_session : session) (playlist : TidalPlaylist.playlist)
    (track_ids : list N) : result TidalPlaylist.playlist :=
  match track_ids with
  | [] => Raise ValueError
  | _ :: _ =>
      tracks <-- add_tracks tidal_session (TidalPlaylist.tracks playlist) track_ids ;;
      Ok {| TidalPlaylist.name := TidalPlaylist.name playlist;
            TidalPlaylist.description := TidalPlaylist.description playlist;
            TidalPlaylist.tracks := tracks |}
  end.

Definition set_tidal_playlist (tidal_session : session) (playlist_id : N)
    (track_ids : list N) : result session :=
  match playlists tidal_session !! playlist_id with
  | Some playlist =>
      playlist <-- playlist_add tidal_session playlist track_ids ;;
      Ok {| search := search tidal_session;
            add_tracks := add_tracks tidal_session;
            playlists := <[playlist_id := playlist]> (playlists tidal_session) |}
  | None => Raise (HTTPError 404)
  end.

(** [Pool.map(f, xs)].  The tasks complete in the order [completion] (task
    indices); a result goes to the slot of its task, the first exception to
    arrive is kept.  Once every task has completed, [map] raises the
    exception kept, if any, and otherwise returns the slots in order;
    until then it does not return ([None]). *)
Definition deliver {A B} (f : A -> result B) (xs : list A)
    (st : list (option B) * option exn) (i : nat) : list (option B) * option exn :=
  match xs !! i with
  | Some x =>
      match f x with
      | Ok b => (<[i := Some b]> st.1, st.2)
      | Raise e => (st.1, Some (default e st.2))
      end
  | None => st
  end.

Definition pool_state {A B} (f : A -> result B) (xs : list A) (completion : list nat)
    : list (option B) * option exn :=
  fold_left (deliver f xs) completion (replicate (length xs) None, None).

Definition pool_map {A B} (f : A -> result B) (xs : list A) (completion : list nat)
    : option (result (list B)) :=
  let st := pool_state f xs completion in
  if forallb (fun i => bool_decide (i ∈ completion)) (seq 0 (length xs)) then
    match st.2 with
    | Some e => Some (Raise e)
    | None => Ok <$> mapM id st.1
    end
  else None.

(** [l[i] = x] *)
Definition list_assign {A} (l : list A) (i : nat) (x : A) : result (list A) :=
  if (i <? length l)%nat then Ok (<[i := x]> l) else Raise IndexError.

Definition call_async (spotify_tracks : list Spotify.track) (tidal_session : session)
    (completion : list nat) : option (result (list (option Tidal.track))) :=
  let results := replicate (length spotify_tracks) None in
  mapped ← pool_map (fun t => tidal_search t tidal_session) spotify_tracks completion;
  Some (outcomes <-- mapped ;;
        fold_left (fun results '(index, result) =>
                     results <-- results ;; list_assign results index result)
                  (imap pair outcomes) (Ok results)).

(** The pages the source service serves for the playlist, in cursor order;
    an entry without track ([None]) is dropped. *)
Definition get_tracks_from_spotify_playlist (pages : list (list (option Spotify.track)))
    : list Spotify.track :=
  pages ≫= omap id.

(** The loop of [sync_playlist]: the identifiers found, in order, and the
    numbers (from 1) of the tracks reported as not found. *)
Definition collect (tidal_tracks : list (option Tidal.track)) : list N * list nat :=
  fold_left (fun '(tidal_track_ids, not_found) '(index, tidal_track) =>
               match tidal_track with
               | Some t => (tidal_track_ids ++ [Tidal.id t], not_found)
               | None => (tidal_track_ids, not_found ++ [S index])
               end)
            (imap pair tidal_tracks) ([], []).

(** [sync_playlist]: the numbers of the tracks reported as not found, or
    the exception that ended the call, and the session after it. *)
Definition sync_playlist (pages : list (list (option Spotify.track))) (tidal_session : session)
    (tidal_playlist : N) (completion : list nat)
    : option (result (list nat) * session) :=
  let spotify_tracks := get_tracks_from_spotify_playlist pages in
  called ← call_async spotify_tracks tidal_session completion;
  Some match called with
       | Raise e => (Raise e, tidal_session)
       | Ok tidal_tracks =>
           let '(tidal_track_ids, not_found) := collect tidal_tracks in
           match set_tidal_playlist tidal_session tidal_playlist tidal_track_ids with
           | Raise e => (Raise e, tidal_session)
           | Ok tidal_session' => (Ok not_found, tidal_session')
           end
       end.

(** ** The playlist reconciler *)

(** [session.playlist(playlist_id).delete()] *)
Definition delete_playlist (tidal_session : session) (playlist_id : N) : result session :=
  match playlists tidal_session !! playlist_id with
  | Some _ =>
      Ok {| search := search tidal_session;
            add_tracks := add_tracks tidal_session;
            playlists := delete playlist_id (playlists tidal_session) |}
  | None => Raise (HTTPError 404)
  end.

(** [tidal_user.create_playlist(name, description)]: the service gives the
    new, empty playlist an identifier that is not in use. *)
Definition create_playlist (tidal_session : session) (name description : pystr)
    : N * session :=
  let playlist_id := fresh (dom (playlists tidal_session)) in
  (playlist_id,
   {| search := search tidal_session;
      add_tracks := add_tracks tidal_session;
      playlists := <[playlist_id := {| TidalPlaylist.name := name;
                                       TidalPlaylist.description := description;
                                       TidalPlaylist.tracks := [] |}]>
                     (playlists tidal_session) |}).

(** One turn of the loop of [sync_list], for the identifier [spotify_id];
    [tidal_playlists] is the list of playlists fetched before the loop. *)
Definition sync_list_step (spotify_session : spotify)
    (tidal_playlists : list (N * TidalPlaylist.playlist)) (tidal_session : session)
    (spotify_id : pystr) (completion : list nat) : option (result (list nat) * session) :=
  match spotify_session spotify_id with
  | Raise SpotifyException => Some (Ok [], tidal_session)
  | Raise e => Some (Raise e, tidal_session)
  | Ok spotify_playlist =>
      let same_name := fun '(_, tidal_playlist) =>
        bool_decide (TidalPlaylist.name tidal_playlist
                     = SpotifyPlaylist.name spotify_playlist) in
      let deleted :=
        match List.find same_name tidal_playlists with
        | Some (playlist_id, _) => delete_playlist tidal_session playlist_id
        | None => Ok tidal_session
        end in
      match deleted with
      | Raise e => Some (Raise e, tidal_session)
      | Ok tidal_session =>
          let '(tidal_playlist, tidal_session) :=
            create_playlist tidal_session (SpotifyPlaylist.name spotify_playlist)
              (SpotifyPlaylist.description spotify_playlist) in
          sync_playlist (SpotifyPlaylist.pages spotify_playlist) tidal_session
            tidal_playlist completion
      end
  end.

(** The loop of [sync_list] from the playlist number [index] on;
    [completion index] is the order in which the resolution tasks of that
    playlist complete.  The result is the lists of tracks reported as not
    found, playlist by playlist. *)
Fixpoint sync_list_from (spotify_session : spotify)
    (tidal_playlists : list (N * TidalPlaylist.playlist)) (tidal_session : session)
    (index : nat) (sync_playlists : list pystr) (completion : nat -> list nat)
    : option (result (list (list nat)) * session) :=
  match sync_playlists with
  | [] => Some (Ok [], tidal_session)
  | spotify_id :: sync_playlists =>
      '(outcome, tidal_session) ←
        sync_list_step spotify_session tidal_playlists tidal_session spotify_id
          (completion index);
      match outcome with
      | Raise e => Some (Raise e, tidal_session)
      | Ok not_found =>
          '(outcome, tidal_session) ←
            sync_list_from spotify_session tidal_playlists tidal_session (S index)
              sync_playlists completion;
          Some (match outcome with
                | Raise e => Raise e
                | Ok reports => Ok (not_found :: reports)
                end, tidal_session)
      end
  end.

Definition sync_list (spotify_session : spotify) (tidal_session : session)
    (sync_playlists : list pystr) (completion : nat -> list nat)
    : option (result (list (list nat)) * session) :=
  let tidal_playlists := map_to_list (playlists tidal_session) in
  sync_list_from spotify_session tidal_playlists tidal_session 0 sync_playlists completion.

(** The number of signals that hold for a pair of tracks. *)
Definition signals (tidal_track : Tidal.track) (spotify_track : Spotify.track) : nat :=
  Nat.b2n (name_match tidal_track spotify_track)
  + Nat.b2n (artist_match tidal_track spotify_track)
  + Nat.b2n (duration_match tidal_track spotify_track 2)
  + Nat.b2n (album_match tidal_track spotify_track).
End Engine.

(** The sync plan: the identifiers of the tracks found, in source order. *)
Definition sync_plan (outcomes : list (option Tidal.track)) : list N :=
  omap (fun outcome => Tidal.id <$> outcome) outcomes.

(** ** Sample data for closed examples *)

(** A transliteration table with no entry at all, for closed examples: on
    ASCII text [unidecode] does not consult the table. *)
Definition no_table : N -> pystr := fun _ => [].

(** A table with the single entry U+00E9 (e with acute accent), which
    [unidecode] makes an "e". *)
Definition accent_table : N -> pystr := fun c => if c =? 233 then str "e" else [].

(** Libraries whose three scores are constant, for closed examples. *)
Definition constant_scores (title artist album : Z) : libraries :=
  {| table := accent_table;
     partial_ratio := fun _ _ => title;
     token_set_ratio := fun _ _ => artist;
     ratio := fun _ _ => album |}.

Definition spotify_a : Spotify.track :=
  {| Spotify.name := str "Yes"; Spotify.artists := [str "Beyonc" ++ [233]];
     Spotify.duration_ms := 200000; Spotify.album := str "Dangerously in Love" |}.

Definition tidal_a : Tidal.track :=
  {| Tidal.id := 5; Tidal.name := str "Yes"; Tidal.artists := [str "Beyonce"];
     Tidal.duration := 201; Tidal.album := str "Dangerously In Love" |}.

Definition tidal_of_duration (seconds : Z) : Tidal.track :=
  {| Tidal.id := 5; Tidal.name := str "Yes"; Tidal.artists := [str "Beyonce"];
     Tidal.duration := seconds; Tidal.album := str "Dangerously In Love" |}.

Definition spotify_of_duration (ms : Z) : Spotify.track :=
  {| Spotify.name := str "Yes"; Spotify.artists := [str "Beyonc" ++ [233]];
     Spotify.duration_ms := ms; Spotify.album := str "Dangerously in Love" |}.

Definition spotify_long : Spotify.track :=
  {| Spotify.name := str "Supercalifragilisticexpialidocious";
     Spotify.artists := []; Spotify.duration_ms := 122000; Spotify.album := str "Mary Poppins" |}.

Definition spotify_b : Spotify.track :=
  {| Spotify.name := str "Halo"; Spotify.artists := [str "Beyonc" ++ [233]];
     Spotify.duration_ms := 261000; Spotify.album := str "I Am... Sasha Fierce" |}.

(** A service that adds, in the order of the request, the requested tracks
    the playlist does not hold yet; for closed examples. *)
Definition add_skipping_duplicates (held track_ids : list N) : list N :=
  fold_left (fun tracks track_id =>
               if bool_decide (track_id ∈ tracks) then tracks else tracks ++ [track_id])
            track_ids held.

(** A destination service that answers every query with the track
    [tidal_a], holds one playlist, number 1, named "Chill", with the
    tracks [items], and adds tracks skipping duplicates. *)
Definition chill (items : list N) : TidalPlaylist.playlist :=
  {| TidalPlaylist.name := str "Chill"; TidalPlaylist.description := str "";
     TidalPlaylist.tracks := items |}.

Definition one_track_catalogue (items : list N) : session :=
  {| search := fun _ => Ok [tidal_a];
     add_tracks := fun held track_ids => Ok (add_skipping_duplicates held track_ids);
     playlists := {[ 1 := chill items ]} |}.

(** A destination service whose search fails for the queries that start with
    "beyonce yes". *)
Definition failing_search (items : list N) : session :=
  {| search := fun query =>
       if starts_with (str "beyonce yes") query then Raise (HTTPError 500) else Ok [tidal_a];
     add_tracks := fun held track_ids => Ok (add_skipping_duplicates held track_ids);
     playlists := {[ 1 := chill items ]} |}.

(** The numbers, counted from [first], of the entries of [outcomes] that
    are [None]. *)
Fixpoint not_found_from (first : nat) (outcomes : list (option Tidal.track)) : list nat :=
  match outcomes with
  | [] => []
  | None :: outcomes => first :: not_found_from (S first) outcomes
  | Some _ :: outcomes => not_found_from (S first) outcomes
  end.

(** The playlist the loop of [sync_list] deletes for a source playlist: the
    first playlist of the list fetched before the loop that has its name. *)
Definition same_named (spotify_playlist : SpotifyPlaylist.playlist)
    (tidal_playlists : list (N * TidalPlaylist.playlist))
    : option (N * TidalPlaylist.playlist) :=
  List.find (fun '(_, tidal_playlist) =>
               bool_decide (TidalPlaylist.name tidal_playlist
                            = SpotifyPlaylist.name spotify_playlist)) tidal_playlists.

(** A candidate and a source track with title, artist names and album title
    in lowercase, and the test that these are ASCII text. *)
Definition lower_tidal_track (t : Tidal.track) : Tidal.track :=
  {| Tidal.id := Tidal.id t; Tidal.name := lower (Tidal.name t);
     Tidal.artists := map lower (Tidal.artists t); Tidal.duration := Tidal.duration t;
     Tidal.album := lower (Tidal.album t) |}.

Definition lower_spotify_track (t : Spotify.track) : Spotify.track :=
  {| Spotify.name := lower (Spotify.name t); Spotify.artists := map lower (Spotify.artists t);
     Spotify.duration_ms := Spotify.duration_ms t; Spotify.album := lower (Spotify.album t) |}.

Definition ascii_tidal_track (t : Tidal.track) : bool :=
  forallb is_ascii (Tidal.name t) && forallb (forallb is_ascii) (Tidal.artists t)
  && forallb is_ascii (Tidal.album t).

Definition ascii_spotify_track (t : Spotify.track) : bool :=
  forallb is_ascii (Spotify.name t) && forallb (forallb is_ascii) (Spotify.artists t)
  && forallb is_ascii (Spotify.album t).

(** The position of the first match in [s]. *)
Fixpoint first_match (find : pystr -> option nat) (s : pystr) : option nat :=
  match s with
  | [] => None
  | _ :: s' =>
      match find s with
      | Some (S _) => Some 0%nat
      | _ => S <$> first_match find s'
      end
  end.

(** The words of the edition pattern. *)
Definition edition_words : list pystr :=
  [ str "original mix"; str "extended mix"; str "radio edit"; str "mixed";
    str "remastered"; str "version" ].

(** A track without artist. *)
Definition spotify_anonymous : Spotify.track :=
  {| Spotify.name := str "Intro"; Spotify.artists := [];
     Spotify.duration_ms := 60000; Spotify.album := str "Demo" |}.

Definition focus : TidalPlaylist.playlist :=
  {| TidalPlaylist.name := str "Focus"; TidalPlaylist.description := str "";
     TidalPlaylist.tracks := [9] |}.

(** A destination service that answers every query with a track of 300
    seconds followed by [tidal_a], and holds the playlists "Chill"
    (number 1) and "Focus" (number 2). *)
Definition two_track_catalogue : session :=
  {| search := fun _ => Ok [tidal_of_duration 300; tidal_a];
     add_tracks := fun held track_ids => Ok (add_skipping_duplicates held track_ids);
     playlists := <[2 := focus]> {[ 1 := chill [7] ]} |}.

(** A source service with one playlist, "p1", named "Chill"; any other
    identifier is refused. *)
Definition evening : SpotifyPlaylist.playlist :=
  {| SpotifyPlaylist.name := str "Chill"; SpotifyPlaylist.description := str "evening";
     SpotifyPlaylist.pages := [[Some spotify_a]] |}.

Definition one_playlist_source : spotify :=
  fun spotify_id =>
    if bool_decide (spotify_id = str "p1") then Ok evening else Raise SpotifyException.

(** A source service that answers every identifier with the exception [e]. *)
Definition failing_source (e : exn) : spotify := fun _ => Raise e.

(** ** Properties of [scan] *)

Section Scan.
Variable find : pystr -> option nat.
Variable repl : pystr.

Lemma scan_nil skip : scan find repl skip [] = [].
Proof. by destruct skip. Qed.

Lemma scan_skip skip s : scan find repl skip s = scan find repl 0 (drop skip s).
Proof.
  revert skip. induction s as [|c s IH]; intros [|k]; simpl; auto.
Qed.

Lemma scan_skip_all skip s : (length s <= skip)%nat -> scan find repl skip s = [].
Proof. intros H. rewrite scan_skip, drop_ge; [apply scan_nil | done]. Qed.

Lemma scan_hit c s k :
  find (c :: s) = Some (S k) ->
  scan find repl 0 (c :: s) = repl ++ scan find repl 0 (drop k s).
Proof. intros H. simpl. rewrite H. by rewrite scan_skip. Qed.

Lemma scan_miss c s :
  (forall k, find (c :: s) <> Some (S k)) ->
  scan find repl 0 (c :: s) = c :: scan find repl 0 s.
Proof.
  intros H. simpl. destruct (find (c :: s)) as [[|k]|] eqn:E; try done.
  by destruct (H k).
Qed.

Lemma scan_not_found s : found find s = false -> scan find repl 0 s = s.
Proof.
  induction s as [|c s IH]; simpl; [done|].
  destruct (find (c :: s)) as [[|k]|]; try done; intros H; by rewrite IH.
Qed.
End Scan.

(** With an empty replacement, scanning only deletes. *)
Lemma scan_sublist find skip s : scan find [] skip s `sublist_of` s.
Proof.
  revert skip. induction s as [|c s IH]; intros skip; simpl; [by destruct skip|].
  destruct skip as [|k]; [|by apply sublist_cons].
  destruct (find (c :: s)) as [[|k]|]; simpl;
    first [by apply sublist_skip | by apply sublist_cons].
Qed.

(** Scanning a text [p ++ tail] in which every match that starts in [p] either
    ends in [p] or runs to the end of the text, and the match at [tail] runs to
    the end: nothing of [tail] is kept. *)
Lemma scan_cut find p tail :
  (forall p1 p2 k, p = p1 ++ p2 -> find (p2 ++ tail) = Some k ->
     (k <= length p2 \/ length (p2 ++ tail) <= k)%nat) ->
  (exists k, find tail = Some (S k) /\ (length tail <= S k)%nat) ->
  forall skip, (skip <= length p \/ length (p ++ tail) <= skip)%nat ->
  scan find [] skip (p ++ tail) `sublist_of` p.
Proof.
  intros Hin [k0 [Hk0 Hlen0]]. induction p as [|a p IH]; intros skip Hskip.
  - simpl. destruct skip as [|k].
    + destruct tail as [|c t]; [done|]. rewrite (scan_hit _ _ _ _ _ Hk0). simpl.
      rewrite drop_ge; [by rewrite scan_nil | simpl in Hlen0; lia].
    + rewrite scan_skip_all; [done|]. simpl in Hskip. lia.
  - simpl. destruct skip as [|k].
    + destruct (find (a :: p ++ tail)) as [[|k]|] eqn:E; simpl.
      * apply sublist_skip, IH; [|left; lia].
        intros p1 p2 k Hp. apply (Hin (a :: p1)). by rewrite Hp.
      * apply sublist_cons, IH.
        -- intros p1 p2 k' Hp. apply (Hin (a :: p1)). by rewrite Hp.
        -- destruct (Hin [] (a :: p) (S k) eq_refl E) as [H|H]; simpl in H; [left|right]; lia.
      * apply sublist_skip, IH; [|left; lia].
        intros p1 p2 k Hp. apply (Hin (a :: p1)). by rewrite Hp.
    + apply sublist_cons, IH.
      * intros p1 p2 k' Hp. apply (Hin (a :: p1)). by rewrite Hp.
      * simpl in Hskip. destruct Hskip; [left|right]; lia.
Qed.

(** A scan whose replacement is shorter than every match never lengthens
    the text, and shortens it when the searched text occurs. *)
Lemma scan_shrinks find repl s :
  shrinking find repl ->
  (length (scan find repl 0 s) <= length s)%nat
  /\ (found find s = true -> (length (scan find repl 0 s) < length s)%nat).
Proof.
  intros Hshrink. remember (length s) as n eqn:Hn. revert s Hn.
  induction n as [n IH] using lt_wf_ind. intros [|c s] ->; [done|].
  destruct (find (c :: s)) as [[|k]|] eqn:E.
  - rewrite scan_miss by (intros k; congruence). cbn [found]. rewrite E. simpl.
    destruct (IH (length s) ltac:(simpl; lia) s eq_refl) as [Hle Hlt].
    split; [lia|]. intros H%Hlt. lia.
  - rewrite (scan_hit _ _ _ _ _ E). destruct (Hshrink _ _ E) as [Hk Hrepl]. simpl in Hk.
    assert (length (scan find repl 0 (drop k s)) <= length (drop k s))%nat as Hle.
    { apply (IH (length (drop k s))); [|done]. rewrite length_drop. simpl. lia. }
    rewrite length_drop in Hle. rewrite length_app. simpl. split; [lia|]. intros _. lia.
  - rewrite scan_miss by (intros k; congruence). cbn [found]. rewrite E. simpl.
    destruct (IH (length s) ltac:(simpl; lia) s eq_refl) as [Hle Hlt].
    split; [lia|]. intros H%Hlt. lia.
Qed.

(** A sequence of shrinking scans returns its input only if none of the
    searched texts occurs in it. *)
Lemma scans_length steps t :
  Forall (fun '(find, repl) => shrinking find repl) steps ->
  (length (fold_left (fun result '(find, repl) => scan find repl 0 result) steps t)
   <= length t)%nat.
Proof.
  intros Hsteps. revert t. induction Hsteps as [|[find repl] steps Hs _ IH]; intros t; [done|].
  simpl. etrans; [apply IH|]. by apply scan_shrinks.
Qed.

Lemma scans_fixed steps t :
  Forall (fun '(find, repl) => shrinking find repl) steps ->
  fold_left (fun result '(find, repl) => scan find repl 0 result) steps t = t ->
  Forall (fun '(find, _) => found find t = false) steps.
Proof.
  intros Hsteps. induction Hsteps as [|[find repl] steps Hs Hsteps IH]; [done|].
  simpl. intros Hfix.
  pose proof (scans_length steps (scan find repl 0 t) Hsteps) as Hle.
  rewrite Hfix in Hle. destruct (scan_shrinks find repl t Hs) as [_ Hlt].
  destruct (found find t) eqn:E; [specialize (Hlt eq_refl); lia|].
  rewrite scan_not_found in Hfix by done. constructor; [done|]. by apply IH.
Qed.

(** ** Properties of the matcher *)

Lemma star_atom_suffix a s rest : rest ∈ star_atom a s -> rest `suffix_of` s.
Proof.
  revert rest. induction s as [|c s IH]; intros rest; simpl.
  - by intros ->%list_elem_of_singleton.
  - destruct (atom_matches a c).
    + intros [H| ->%list_elem_of_singleton]%elem_of_app; [|done].
      by apply suffix_cons_r, IH.
    + by intros ->%list_elem_of_singleton.
Qed.

(** What a match leaves is a suffix of the text. *)
Lemma run_suffix r s rest : rest ∈ run r s -> rest `suffix_of` s.
Proof.
  revert s rest. induction r as [|a|r1 IH1 r2 IH2|r1 IH1 r2 IH2|r IH|a]; intros s rest; simpl.
  - by intros ->%list_elem_of_singleton.
  - destruct s as [|c s]; [by intros ?%elem_of_nil|].
    destruct (atom_matches a c); [|by intros ?%elem_of_nil].
    intros ->%list_elem_of_singleton. by apply suffix_cons_r.
  - intros (u & Hrest & Hu)%list_elem_of_bind. etrans; [by apply IH2 | by apply IH1].
  - intros [H|H]%elem_of_app; eauto.
  - intros [H| ->%list_elem_of_singleton]%elem_of_app; eauto.
  - apply star_atom_suffix.
Qed.

(** The longest match of [a*] stops at the end of the text or in front of a
    character [a] does not match. *)
Lemma star_atom_head a s :
  exists rest l, star_atom a s = rest :: l /\
    (rest = [] \/ exists c y, rest = c :: y /\ atom_matches a c = false).
Proof.
  induction s as [|c s (rest & l & IH & Hrest)]; simpl; [by eauto|].
  destruct (atom_matches a c) eqn:E.
  - rewrite IH. simpl. eauto.
  - exists (c :: s), []. eauto 6.
Qed.

Lemma match_len_Some r s k :
  match_len r s = Some k <->
  exists rest, head (run r s) = Some rest /\ k = (length s - length rest)%nat.
Proof.
  unfold match_len. destruct (run r s) as [|rest l]; simpl; split.
  - done.
  - by intros (? & ? & _).
  - intros [= <-]. eauto.
  - by intros (? & [= <-] & ->).
Qed.

Lemma match_len_None r s : match_len r s = None <-> run r s = [].
Proof. unfold match_len. by destruct (run r s). Qed.

(** A match is never longer than the text. *)
Lemma match_len_le r s k : match_len r s = Some k -> (k <= length s)%nat.
Proof. intros (rest & _ & ->)%match_len_Some. lia. Qed.

(** *** The character-set pattern *)

Lemma allowed_char_ranges c :
  allowed_char c =
  ((97 <=? c) && (c <=? 122)) || ((48 <=? c) && (c <=? 57)) || (c =? 36) || (c =? 33)
  || (c =? 38) || (c =? 63) || (c =? 46) || (c =? 39) || (c =? 45) || (c =? 32).
Proof.
  unfold allowed_char, allowed, chr. simpl.
  repeat match goal with
  | |- context [(?n <=? c) && (c <=? ?n)] =>
      replace ((n <=? c) && (c <=? n)) with (c =? n)
        by (destruct (N.eqb_spec c n), (N.leb_spec n c), (N.leb_spec c n); simpl; lia)
  end.
  by rewrite orb_false_r, !orb_assoc.
Qed.

Lemma match_len_charset c s :
  match_len re_charset (c :: s) = if allowed_char c then None else Some 1%nat.
Proof.
  unfold match_len, re_charset, run, atom_matches. fold (allowed_char c).
  destruct (allowed_char c); cbn [xorb length]; [done|]. f_equal. lia.
Qed.

(** The last step keeps exactly the allowed characters. *)
Lemma re_sub_charset s : re_sub re_charset [] s = List.filter allowed_char s.
Proof.
  unfold re_sub. induction s as [|c s IH]; [done|].
  cbn [scan List.filter]. rewrite match_len_charset.
  destruct (allowed_char c); simpl; by rewrite IH.
Qed.

Lemma re_sub_charset_allowed s : forallb allowed_char (re_sub re_charset [] s) = true.
Proof.
  rewrite re_sub_charset. induction s as [|c s IH]; [done|]. simpl.
  destruct (allowed_char c) eqn:E; simpl; [by rewrite E|done].
Qed.

Lemma re_sub_charset_id s : forallb allowed_char s = true -> re_sub re_charset [] s = s.
Proof.
  rewrite re_sub_charset. induction s as [|c s IH]; [done|]. simpl.
  intros [-> ?]%andb_prop. by rewrite IH.
Qed.

Lemma lower_allowed s : forallb allowed_char s = true -> lower s = s.
Proof.
  induction s as [|c s IH]; [done|]. simpl. intros [Hc ?]%andb_prop. rewrite IH by done.
  f_equal. unfold lower_char. rewrite allowed_char_ranges in Hc.
  destruct ((65 <=? c) && (c <=? 90)) eqn:E; [|done]. exfalso.
  apply andb_prop in E as [?%N.leb_le ?%N.leb_le].
  repeat (apply orb_prop in Hc as [Hc|Hc]);
    first [ apply andb_prop in Hc as [?%N.leb_le ?%N.leb_le] | apply N.eqb_eq in Hc ]; lia.
Qed.

Lemma unidecode_allowed table s : forallb allowed_char s = true -> unidecode table s = s.
Proof.
  intros H. unfold unidecode.
  replace (forallb is_ascii s) with true; [done|]. symmetry.
  induction s as [|c s IH]; [done|]. simpl in *. apply andb_prop in H as [Hc ?].
  rewrite IH by done. rewrite andb_true_r. unfold is_ascii. apply N.ltb_lt.
  rewrite allowed_char_ranges in Hc.
  repeat (apply orb_prop in Hc as [Hc|Hc]);
    first [ apply andb_prop in Hc as [?%N.leb_le ?%N.leb_le] | apply N.eqb_eq in Hc ]; lia.
Qed.

(** *** The featuring-clause pattern *)

Lemma run_cat r1 r2 s rest :
  rest ∈ run (Cat r1 r2) s <-> exists u, u ∈ run r1 s /\ rest ∈ run r2 u.
Proof. simpl. rewrite list_elem_of_bind. split; intros (u & ? & ?); eauto. Qed.

Lemma run_alt r1 r2 s : run (Alt r1 r2) s = run r1 s ++ run r2 s.
Proof. done. Qed.

Lemma run_one_lit c s rest : rest ∈ run (One (Lit c)) s -> s = c :: rest.
Proof.
  simpl. destruct s as [|d s]; [by intros ?%elem_of_nil|]. simpl.
  destruct (N.eqb_spec d c) as [->|]; [|by intros ?%elem_of_nil].
  by intros ->%list_elem_of_singleton.
Qed.

Lemma run_lit_of w s : run (lit_of w) (w ++ s) = [s].
Proof.
  induction w as [|a w IH]; [done|]. simpl. rewrite N.eqb_refl. simpl.
  by rewrite IH.
Qed.

Lemma run_lit_of_inv w s rest : rest ∈ run (lit_of w) s -> s = w ++ rest.
Proof.
  revert s. induction w as [|a w IH]; intros s.
  - by intros ->%list_elem_of_singleton.
  - change (lit_of (a :: w)) with (Cat (One (Lit a)) (lit_of w)).
    intros (u & ->%run_one_lit & ->%IH)%run_cat. done.
Qed.

(** A marker of the open alternative is two, four or four letters and one
    more character, which is not a line feed. *)
Lemma run_marker_inv s rest :
  rest ∈ run re_marker s ->
  exists m c, m ∈ [str "ft"; str "feat"; str "prod"] /\ c <> LF /\ s = m ++ c :: rest.
Proof.
  assert (Hdot : forall w u, rest ∈ run (Cat (lit w) (One Dot)) u ->
            exists c, c <> LF /\ u = str w ++ c :: rest).
  { intros w u (v & ->%run_lit_of_inv & Hv)%run_cat. simpl in Hv.
    destruct v as [|c v]; [by apply elem_of_nil in Hv|]. exists c.
    destruct (N.eqb_spec c LF); simpl in Hv; [by apply elem_of_nil in Hv|].
    by apply list_elem_of_singleton in Hv as ->. }
  unfold re_marker. rewrite !run_alt.
  intros [H|[H|H]%elem_of_app]%elem_of_app; apply Hdot in H as (c & ? & ->);
    eexists _, c; (split; [|done]); set_solver.
Qed.

Lemma run_marker m c rest :
  m ∈ [str "ft"; str "feat"; str "prod"] -> c <> LF ->
  rest ∈ run re_marker (m ++ c :: rest).
Proof.
  intros Hm Hc.
  assert (Hdot : forall w, rest ∈ run (Cat (lit w) (One Dot)) (str w ++ c :: rest)).
  { intros w. apply run_cat. exists (c :: rest). split.
    - unfold lit. rewrite run_lit_of. by apply list_elem_of_singleton.
    - simpl. destruct (N.eqb_spec c LF); [done|]. by apply list_elem_of_singleton. }
  unfold re_marker. rewrite !run_alt, !elem_of_app.
  repeat (apply elem_of_cons in Hm as [->|Hm]); [| | |by apply elem_of_nil in Hm]; auto.
Qed.

(** A match of the closed alternative ends on a closing parenthesis. *)
Lemma run_feat_closed s rest :
  rest ∈ run re_feat_closed s -> exists x, s = x ++ chr ")" :: rest.
Proof.
  unfold re_feat_closed.
  intros (u1 & H1 & (u2 & H2 & (u3 & H3 & ->%run_one_lit)%run_cat)%run_cat)%run_cat.
  apply run_suffix in H1, H2, H3.
  assert (chr ")" :: rest `suffix_of` s) as [x ->] by (do 2 (etrans; [|done]); done).
  eauto.
Qed.

(** The match the engine reports for the open alternative runs to the end of
    the text or stops in front of a line feed. *)
Lemma head_run_feat_open s rest :
  head (run re_feat_open s) = Some rest -> rest = [] \/ exists y, rest = LF :: y.
Proof.
  unfold re_feat_open. cbn [run]. destruct (run re_marker s) as [|u us]; [done|].
  rewrite bind_cons. cbn [run].
  destruct (star_atom_head Dot u) as (rest' & l & -> & Hrest'). simpl.
  intros [= <-]. destruct Hrest' as [->|(c & y & -> & Hc)]; [by left|right].
  simpl in Hc. destruct (N.eqb_spec c LF) as [->|]; [eauto|done].
Qed.

Lemma head_run_feat s rest :
  head (run re_feat s) = Some rest ->
  rest = [] \/ (exists x, s = x ++ chr ")" :: rest) \/ (exists y, rest = LF :: y).
Proof.
  unfold re_feat. rewrite run_alt.
  destruct (run re_feat_closed s) as [|rest' l] eqn:E; simpl.
  - intros H%head_run_feat_open. tauto.
  - intros [= <-]. right; left. apply run_feat_closed. rewrite E. by left.
Qed.

(** Where the character [c] of [x ++ c :: rest] lies when the same text is
    split as [p ++ tail] and [tail] has no [c]. *)
Lemma split_before (c : N) (p tail x rest : pystr) :
  p ++ tail = x ++ c :: rest -> c ∉ tail -> (length x < length p)%nat.
Proof.
  intros [(k & -> & Hk)|(k & -> & ->)]%app_eq_inv Hc.
  - destruct k as [|d k]; [|rewrite length_app; simpl; lia].
    simpl in Hk. subst tail. destruct Hc. by left.
  - destruct Hc. rewrite elem_of_app. right. by left.
Qed.

(** In front of a tail without closing parenthesis or line feed, a match
    either stays in front of the tail or swallows it whole. *)
Lemma match_len_feat_tail p tail k :
  chr ")" ∉ tail -> LF ∉ tail ->
  match_len re_feat (p ++ tail) = Some k ->
  (k <= length p \/ length (p ++ tail) <= k)%nat.
Proof.
  intros Hparen Hlf (rest & Hhead & ->)%match_len_Some.
  assert (rest `suffix_of` p ++ tail) as [x Hx].
  { apply run_suffix with re_feat, head_Some_elem_of, Hhead. }
  apply head_run_feat in Hhead as [->|[[x' Hx']|[y ->]]].
  - right. simpl. lia.
  - left. pose proof (split_before _ _ _ _ _ Hx' Hparen).
    rewrite Hx'. rewrite length_app. simpl. lia.
  - left. pose proof (split_before _ _ _ _ _ Hx Hlf).
    rewrite Hx. rewrite length_app. simpl. lia.
Qed.

Lemma marker_chars m (c : N) :
  m ∈ [str "ft"; str "feat"; str "prod"] -> c = chr ")" \/ c = LF -> c ∉ m.
Proof.
  intros Hm Hc Hin.
  repeat (apply elem_of_cons in Hm as [->|Hm]); [| | |by apply elem_of_nil in Hm];
    repeat (apply elem_of_cons in Hin as [->|Hin]);
    first [by apply elem_of_nil in Hin | by destruct Hc].
Qed.

(** At an open marker followed by neither closing parenthesis nor line feed,
    the match runs to the end of the text. *)
Lemma match_len_feat_marker m c r :
  m ∈ [str "ft"; str "feat"; str "prod"] -> LF ∉ c :: r -> chr ")" ∉ c :: r ->
  match_len re_feat (m ++ c :: r) = Some (length (m ++ c :: r)).
Proof.
  intros Hm Hlf Hparen.
  assert (chr ")" ∉ m ++ c :: r) as Hparen'.
  { apply not_elem_of_app. split; [apply marker_chars; auto|done]. }
  assert (LF ∉ m ++ c :: r) as Hlf'.
  { apply not_elem_of_app. split; [apply marker_chars; auto|done]. }
  destruct (match_len re_feat (m ++ c :: r)) as [k|] eqn:E.
  - f_equal. pose proof (match_len_le _ _ _ E) as Hle.
    destruct (match_len_feat_tail [] _ _ Hparen' Hlf' E) as [H|H]; simpl in *; [|lia].
    exfalso. assert (k = 0)%nat as -> by lia. clear H Hle.
    apply match_len_Some in E as (rest & Hhead & Hk).
    assert (rest `suffix_of` m ++ c :: r) as Hsuf.
    { apply run_suffix with re_feat, head_Some_elem_of, Hhead. }
    assert (rest = m ++ c :: r) as ->.
    { destruct Hsuf as [x Hx]. rewrite Hx in Hk. rewrite length_app in Hk.
      destruct x; [done|simpl in Hk; lia]. }
    apply head_run_feat in Hhead as [H|[[x Hx]|[y Hy]]].
    + destruct m; discriminate.
    + apply (f_equal length) in Hx.
      rewrite !length_app in Hx. simpl in Hx. rewrite !length_app in Hx. simpl in Hx. lia.
    + destruct Hlf'. rewrite Hy. by left.
  - exfalso. apply match_len_None in E. unfold re_feat in E. rewrite run_alt in E.
    apply app_eq_nil in E as [_ E]. unfold re_feat_open in E. cbn [run] in E.
    pose proof (run_marker m c r Hm) as Hr.
    destruct (run re_marker (m ++ c :: r)) as [|u us].
    + apply not_elem_of_cons in Hlf as [Hc _]. by apply elem_of_nil with r, Hr.
    + rewrite bind_cons in E. cbn [run] in E.
      destruct (star_atom_head Dot u) as (? & ? & Hs & _). by rewrite Hs in E.
Qed.

(** The featuring-clause step deletes everything from an open marker on, when
    neither closing parenthesis nor line feed follows the marker: what is
    left is made of characters that stood in front of it. *)
Lemma re_sub_feat_cut p m c r :
  m ∈ [str "ft"; str "feat"; str "prod"] -> LF ∉ c :: r -> chr ")" ∉ c :: r ->
  re_sub re_feat [] (p ++ m ++ c :: r) `sublist_of` p.
Proof.
  intros Hm Hlf Hparen. unfold re_sub. apply scan_cut.
  - intros p1 p2 k _. apply match_len_feat_tail.
    + apply not_elem_of_app. split; [apply marker_chars; auto|done].
    + apply not_elem_of_app. split; [apply marker_chars; auto|done].
  - rewrite match_len_feat_marker by done.
    destruct (m ++ c :: r) as [|d t] eqn:E; [by destruct m|].
    exists (length t). split; simpl; [done|lia].
  - left. lia.
Qed.

(** A text with no closing parenthesis and no open marker has no featuring
    clause, whether or not it holds an opening [(with]. *)
Lemma found_feat_open_only s :
  chr ")" ∉ s -> found (match_len re_marker) s = false ->
  found (match_len re_feat) s = false.
Proof.
  induction s as [|c s IH]; [done|]. intros Hparen Hm. cbn [found] in *.
  assert (run re_feat (c :: s) = []) as Hrun.
  { unfold re_feat. rewrite run_alt. apply app_nil. split.
    - destruct (run re_feat_closed (c :: s)) as [|rest l] eqn:E; [done|].
      destruct (run_feat_closed (c :: s) rest) as [x Hx]; [rewrite E; by left|].
      destruct Hparen. rewrite Hx, elem_of_app. right. by left.
    - unfold re_feat_open. cbn [run].
      destruct (run re_marker (c :: s)) as [|u us] eqn:E; [done|].
      destruct (run_marker_inv (c :: s) u) as (m & d & _ & _ & Hs); [rewrite E; by left|].
      unfold match_len in Hm. rewrite E in Hm. rewrite Hs in Hm.
      rewrite length_app in Hm. cbn [length] in Hm.
      by replace (length m + S (length u) - length u)%nat with (S (length m)) in Hm by lia. }
  unfold match_len at 1. rewrite Hrun. apply IH.
  - by apply not_elem_of_cons in Hparen as [_ ?].
  - by destruct (match_len re_marker (c :: s)) as [[|?]|].
Qed.

(** ** The normalizer, step by step *)

Lemma simplify_steps table s :
  simplify table s = re_sub re_charset [] (re_sub re_feat [] (before_feat table s)).
Proof. done. Qed.

Lemma simplify_allowed table s : forallb allowed_char (simplify table s) = true.
Proof. rewrite simplify_steps. apply re_sub_charset_allowed. Qed.

Lemma settled_before_feat table s :
  forallb allowed_char s = true -> settled s = true -> before_feat table s = s.
Proof.
  intros Hs H. unfold settled in H. cbn [forallb replacements] in H.
  rewrite !andb_true_iff, !negb_true_iff in H.
  destruct H as ((Hx & Hvs & Hdash & _) & Hedition & _).
  unfold before_feat. rewrite unidecode_allowed, lower_allowed by done.
  unfold replace, re_sub.
  by rewrite (scan_not_found _ _ s Hx), (scan_not_found _ _ s Hvs),
    (scan_not_found _ _ s Hdash), (scan_not_found _ _ s Hedition).
Qed.

Lemma simplify_scans table s :
  simplify table s
  = fold_left (fun result '(find, repl) => scan find repl 0 result) steps
      (lower (unidecode table s)).
Proof. done. Qed.

Lemma starts_with_length old s : starts_with old s = true -> (length old <= length s)%nat.
Proof.
  revert s. induction old as [|a old IH]; intros [|c s]; simpl; try done; [lia|].
  intros [_ H%IH]%andb_prop. lia.
Qed.

Lemma shrinking_literal old new :
  (length new < length old)%nat -> shrinking (find_literal old) new.
Proof.
  intros Hlen u k. unfold find_literal. destruct (starts_with old u) eqn:E; [|done].
  apply starts_with_length in E. intros [= H]. lia.
Qed.

Lemma shrinking_pattern r : shrinking (match_len r) [].
Proof. intros u k H%match_len_le. simpl. lia. Qed.

Lemma steps_shrinking : Forall (fun '(find, repl) => shrinking find repl) steps.
Proof.
  unfold steps. cbn [map replacements regex app].
  repeat apply Forall_cons_2; try apply Forall_nil_2;
    first [apply shrinking_pattern | apply shrinking_literal; vm_compute; lia].
Qed.

(** A decidable fact about closed terms, settled by evaluation. *)
Ltac decide_by_compute := apply (bool_decide_unpack _); by vm_compute.

(** ** The normalizer: idempotence *)

(** C2 (counterexample).  [simplify] is not idempotent, whatever the
    transliteration table: [str.replace] does not see the second of two
    overlapping join markers, so "a x x b" becomes "a x b", and a second
    pass turns that into "a b". *)
Lemma simplify_not_idempotent :
  ~ exists table,
      simplify table (simplify table (str "a x x b")) = simplify table (str "a x x b").
Proof. intros [table H]. vm_compute in H. discriminate. Qed.

(** C2 (amended).  A second pass of [simplify] changes nothing exactly when
    the first pass left no join marker, no edition word and no featuring
    clause in its output. *)
Theorem simplify_idempotent_settled table s :
  simplify table (simplify table s) = simplify table s
  <-> settled (simplify table s) = true.
Proof.
  pose proof (simplify_allowed table s) as Hs. split.
  - rewrite (simplify_scans table (simplify table s)).
    rewrite unidecode_allowed, lower_allowed by done.
    intros H%scans_fixed; [|apply steps_shrinking].
    unfold steps in H. cbn [map replacements regex app] in H.
    repeat match goal with H : Forall _ (_ :: _) |- _ => apply Forall_cons in H as [? H] end.
    unfold settled. cbn [forallb replacements].
    rewrite !andb_true_iff, !negb_true_iff. done.
  - intros H. rewrite (simplify_steps table (simplify table s)).
    rewrite settled_before_feat by done.
    unfold settled in H. cbn [forallb replacements] in H.
    rewrite !andb_true_iff, !negb_true_iff in H. destruct H as (_ & _ & Hfeat & _).
    unfold re_sub at 2. rewrite scan_not_found by done.
    by apply re_sub_charset_id.
Qed.

Lemma simplify_idempotent_settled_witness :
  settled (simplify no_table (str "Song (feat. X)")) = true
  /\ simplify no_table (simplify no_table (str "Song (feat. X)"))
     = simplify no_table (str "Song (feat. X)").
Proof.
  assert (H : settled (simplify no_table (str "Song (feat. X)")) = true) by (by vm_compute).
  exact (conj H (proj2 (simplify_idempotent_settled no_table _) H)).
Defined.

(** ** The normalizer: featuring clauses *)

(** C5 (counterexample).  The clause is removed, the space in front of it is
    not: "Song (feat. X)" normalizes to "song " and "Song" to "song". *)
Lemma simplify_feat_keeps_space :
  ~ exists table, simplify table (str "Song (feat. X)") = simplify table (str "Song").
Proof. intros [table H]. vm_compute in H. discriminate. Qed.

(** C5 (amended).  [simplify] strips the parenthesized featuring clause of
    "Song (feat. X)" entirely and keeps the space that stood in front of it:
    the result is the normal form of "Song" followed by one space. *)
Theorem simplify_feat_song table :
  simplify table (str "Song (feat. X)") = simplify table (str "Song") ++ str " ".
Proof. by vm_compute. Qed.

(** C8 (counterexample).  An opening "(with" that no closing parenthesis
    follows is not a marker: the featuring-clause step removes nothing. *)
Lemma re_sub_feat_open_with :
  re_sub re_feat [] (str "song (with x") = str "song (with x".
Proof. by vm_compute. Qed.

(** C8 (amended).  In the featuring-clause step, when the text holds one of
    the markers [ft.], [feat.] or [prod.] (the dot being any character but a
    line feed) and neither a closing parenthesis nor a line feed from the
    marker's last character on, everything from the marker to the end of the
    text is removed: what the step returns is made of characters in front of
    the marker.  An opening [(with] is removed only together with a closing
    parenthesis: a text without closing parenthesis and without one of the
    three markers is returned as it is. *)
Theorem re_sub_feat_open_markers :
  (forall p m c r,
     m ∈ [str "ft"; str "feat"; str "prod"] -> LF ∉ c :: r -> chr ")" ∉ c :: r ->
     re_sub re_feat [] (p ++ m ++ c :: r) `sublist_of` p)
  /\ (forall p r,
        chr ")" ∉ p ++ str "(with" ++ r ->
        found (match_len re_marker) (p ++ str "(with" ++ r) = false ->
        re_sub re_feat [] (p ++ str "(with" ++ r) = p ++ str "(with" ++ r).
Proof.
  split.
  - apply re_sub_feat_cut.
  - intros p r Hparen Hm. apply scan_not_found. by apply found_feat_open_only.
Qed.

Lemma re_sub_feat_open_markers_witness :
  (str "feat" ∈ [str "ft"; str "feat"; str "prod"]
   /\ (LF ∉ chr "." :: str " x") /\ (chr ")" ∉ chr "." :: str " x")
   /\ re_sub re_feat [] (str "song " ++ str "feat" ++ chr "." :: str " x")
      `sublist_of` str "song ")
  /\ ((chr ")" ∉ str "song " ++ str "(with" ++ str " x")
      /\ found (match_len re_marker) (str "song " ++ str "(with" ++ str " x") = false
      /\ re_sub re_feat [] (str "song " ++ str "(with" ++ str " x")
         = str "song " ++ str "(with" ++ str " x").
Proof.
  assert (H1 : str "feat" ∈ [str "ft"; str "feat"; str "prod"])
    by (decide_by_compute).
  assert (H2 : LF ∉ chr "." :: str " x") by (decide_by_compute).
  assert (H3 : chr ")" ∉ chr "." :: str " x") by (decide_by_compute).
  assert (H4 : chr ")" ∉ str "song " ++ str "(with" ++ str " x")
    by (decide_by_compute).
  assert (H5 : found (match_len re_marker) (str "song " ++ str "(with" ++ str " x") = false)
    by (by vm_compute).
  exact (conj (conj H1 (conj H2 (conj H3 (proj1 re_sub_feat_open_markers _ _ _ _ H1 H2 H3))))
              (conj H4 (conj H5 (proj2 re_sub_feat_open_markers _ _ H4 H5)))).
Defined.

(** C10 (counterexample).  Two inputs in which "ft" is followed by a further
    character and by no closing parenthesis, and of which the normalizer
    keeps the "ft": in "ftmixed" the edition word is removed first, so
    nothing follows "ft" when the featuring pattern is tried; in "ft" and a
    line feed, the dot of the marker does not match the line feed. *)
Lemma simplify_keeps_ft :
  ~ (exists table, simplify table (str "ft" ++ str "mixed") = [])
  /\ ~ (exists table, simplify table (str "ft" ++ [LF]) = []).
Proof. split; intros [table H]; vm_compute in H; discriminate. Qed.

(** C10 (amended).  When the text that reaches the featuring-clause pattern
    (the input transliterated, lowercased, with join markers replaced and
    edition words removed) holds the letters "ft" followed by at least one
    further character, with neither a line feed nor a closing parenthesis
    from that character on, the normalizer deletes everything from that
    occurrence to the end: its output is made of characters in front of the
    occurrence.  No opening parenthesis, word boundary or literal dot is
    needed, the dot of the marker matching any character but a line feed. *)
Theorem simplify_cuts_at_ft table s p c r :
  before_feat table s = p ++ str "ft" ++ c :: r ->
  LF ∉ c :: r -> chr ")" ∉ c :: r ->
  simplify table s `sublist_of` p.
Proof.
  intros Hs Hlf Hparen. rewrite simplify_steps, Hs. etrans.
  - apply scan_sublist.
  - apply re_sub_feat_cut; [|done..]. set_solver.
Qed.

(** The ordinary word "after" loses everything from its "ft" on. *)
Example simplify_after table : simplify table (str "after") = str "a".
Proof. by vm_compute. Qed.

Lemma simplify_cuts_at_ft_witness :
  before_feat no_table (str "after") = str "a" ++ str "ft" ++ chr "e" :: str "r"
  /\ (LF ∉ chr "e" :: str "r") /\ (chr ")" ∉ chr "e" :: str "r")
  /\ simplify no_table (str "after") `sublist_of` str "a".
Proof.
  assert (H1 : before_feat no_table (str "after") = str "a" ++ str "ft" ++ chr "e" :: str "r")
    by (by vm_compute).
  assert (H2 : LF ∉ chr "e" :: str "r") by (decide_by_compute).
  assert (H3 : chr ")" ∉ chr "e" :: str "r") by (decide_by_compute).
  exact (conj H1 (conj H2 (conj H3 (simplify_cuts_at_ft no_table _ _ _ _ H1 H2 H3)))).
Defined.

(** ** The matcher *)

(** C1.  The verdict of [match] is true exactly when at least three of the
    four signals (title, artists, duration, album) hold: with two signals the
    verdict is false, with three it is true. *)
Theorem match_three_of_four lib tidal_track spotify_track :
  (match_ lib tidal_track spotify_track = true
   <-> (3 <= signals lib tidal_track spotify_track)%nat)
  /\ (signals lib tidal_track spotify_track = 2%nat
      -> match_ lib tidal_track spotify_track = false)
  /\ (signals lib tidal_track spotify_track = 3%nat
      -> match_ lib tidal_track spotify_track = true).
Proof.
  unfold match_, signals.
  destruct (name_match lib tidal_track spotify_track),
    (artist_match lib tidal_track spotify_track),
    (duration_match tidal_track spotify_track 2),
    (album_match lib tidal_track spotify_track); simpl;
    repeat split; intros; first [done | lia].
Qed.

Lemma match_three_of_four_witness :
  (signals (constant_scores 100 0 0) tidal_a spotify_a = 2%nat
   /\ match_ (constant_scores 100 0 0) tidal_a spotify_a = false)
  /\ (signals (constant_scores 100 100 0) tidal_a spotify_a = 3%nat
      /\ match_ (constant_scores 100 100 0) tidal_a spotify_a = true).
Proof.
  assert (H2 : signals (constant_scores 100 0 0) tidal_a spotify_a = 2%nat) by (by vm_compute).
  assert (H3 : signals (constant_scores 100 100 0) tidal_a spotify_a = 3%nat) by (by vm_compute).
  exact (conj (conj H2 (proj1 (proj2 (match_three_of_four _ _ _)) H2))
              (conj H3 (proj2 (proj2 (match_three_of_four _ _ _)) H3))).
Defined.

Section Floats.
Local Open Scope Q_scope.

Lemma round_half_even_floor x :
  round_half_even x = Qfloor x \/ round_half_even x = (Qfloor x + 1)%Z.
Proof.
  unfold round_half_even. destruct (Qcompare _ _); [destruct (Z.even _)| |]; auto.
Qed.

Lemma round_half_even_Z k : round_half_even (inject_Z k) = k.
Proof.
  unfold round_half_even. rewrite Qfloor_Z.
  destruct (Qcompare_spec (inject_Z k - inject_Z k) (1 # 2)) as [H|H|H];
    [exfalso; lra|reflexivity|exfalso; lra].
Qed.

Lemma round_half_even_mono x y : x <= y -> (round_half_even x <= round_half_even y)%Z.
Proof.
  intros Hxy. pose proof (Qfloor_resp_le _ _ Hxy) as Hf.
  destruct (Z.eq_dec (Qfloor x) (Qfloor y)) as [E|NE].
  - unfold round_half_even. rewrite <- E.
    destruct (Qcompare_spec (x - inject_Z (Qfloor x)) (1 # 2)) as [Hx|Hx|Hx];
      destruct (Qcompare_spec (y - inject_Z (Qfloor x)) (1 # 2)) as [Hy|Hy|Hy];
      try destruct (Z.even (Qfloor x)); try lia; exfalso; lra.
  - destruct (round_half_even_floor x) as [->| ->], (round_half_even_floor y) as [->| ->]; lia.
Qed.

Lemma round_half_even_ge x k : inject_Z k <= x -> (k <= round_half_even x)%Z.
Proof. intros H%round_half_even_mono. now rewrite round_half_even_Z in H. Qed.

Lemma round_half_even_le x k : x <= inject_Z k -> (round_half_even x <= k)%Z.
Proof. intros H%round_half_even_mono. now rewrite round_half_even_Z in H. Qed.

Lemma pow2_pos e : 0 < 2 ^ e.
Proof. apply Qpower_0_lt. reflexivity. Qed.

Lemma pow2_succ e : 2 ^ (e + 1) == 2 * 2 ^ e.
Proof. rewrite Qpower_plus by discriminate. simpl. ring. Qed.

Lemma pow2_le a b : (a <= b)%Z -> 2 ^ a <= 2 ^ b.
Proof. intros H. apply Qpower_le_compat_l; [exact H|discriminate]. Qed.

Lemma pow2_lt_inv a b : 2 ^ a < 2 ^ b -> (a < b)%Z.
Proof. intros H. apply (Qpower_lt_compat_l_inv 2); [exact H|reflexivity]. Qed.

Lemma pow2_Z a : (0 <= a)%Z -> 2 ^ a == inject_Z (2 ^ a).
Proof. intros H. now rewrite Zpower_Qpower. Qed.

(** floor of the binary logarithm *)
Lemma ilog2_spec x : 0 < x -> 2 ^ ilog2 x <= x /\ x < 2 ^ (ilog2 x + 1).
Proof.
  intros Hx. destruct x as [n d]. unfold ilog2. cbn [Qnum Qden].
  assert (0 < n)%Z as Hn by (unfold Qlt in Hx; simpl in Hx; lia).
  set (a := Z.log2 n). set (b := Z.log2 (Z.pos d)).
  assert (0 <= a)%Z as Ha by apply Z.log2_nonneg.
  assert (0 <= b)%Z as Hb by apply Z.log2_nonneg.
  destruct (Z.log2_spec n Hn) as [Hn1 Hn2]. fold a in Hn1, Hn2.
  destruct (Z.log2_spec (Z.pos d) eq_refl) as [Hd1 Hd2]. fold b in Hd1, Hd2.
  assert (Hlo : 2 ^ (a - b - 1) <= n # d).
  { replace (a - b - 1)%Z with (a - (b + 1))%Z by lia.
    rewrite Qpower_minus by discriminate. rewrite !pow2_Z by lia.
    apply Qle_shift_div_r.
    - change 0 with (inject_Z 0). rewrite <- Zlt_Qlt. lia.
    - unfold Qle, Qmult, inject_Z. cbn [Qnum Qden]. nia. }
  assert (Hhi : n # d < 2 ^ (a - b + 1)).
  { replace (a - b + 1)%Z with (a + 1 - b)%Z by lia.
    rewrite Qpower_minus by discriminate. rewrite !pow2_Z by lia.
    apply Qlt_shift_div_l.
    - change 0 with (inject_Z 0). rewrite <- Zlt_Qlt. lia.
    - unfold Qlt, Qmult, inject_Z. cbn [Qnum Qden]. nia. }
  destruct (Qle_bool (2 ^ (a - b)) (n # d)) eqn:E.
  - apply Qle_bool_iff in E. tauto.
  - split; [exact Hlo|]. replace (a - b - 1 + 1)%Z with (a - b)%Z by lia.
    apply Qnot_le_lt. intros H%Qle_bool_iff. congruence.
Qed.

Lemma ilog2_unique x l : 2 ^ l <= x -> x < 2 ^ (l + 1) -> ilog2 x = l.
Proof.
  intros Hlo Hhi. assert (0 < x) as Hx by (eapply Qlt_le_trans; [apply pow2_pos|exact Hlo]).
  destruct (ilog2_spec x Hx) as [Hlo' Hhi'].
  assert (ilog2 x < l + 1)%Z by (apply pow2_lt_inv; eapply Qle_lt_trans; eauto).
  assert (l < ilog2 x + 1)%Z by (apply pow2_lt_inv; eapply Qle_lt_trans; eauto).
  lia.
Qed.

Lemma ilog2_mono x y : 0 < x -> x <= y -> (ilog2 x <= ilog2 y)%Z.
Proof.
  intros Hx Hxy. assert (0 < y) as Hy by (eapply Qlt_le_trans; eauto).
  destruct (ilog2_spec x Hx) as [Hlo _], (ilog2_spec y Hy) as [_ Hhi].
  assert (ilog2 x < ilog2 y + 1)%Z; [|lia].
  apply pow2_lt_inv. eapply Qle_lt_trans; [exact Hlo|]. eapply Qle_lt_trans; eauto.
Qed.

Lemma round_half_even_comp x y : x == y -> round_half_even x = round_half_even y.
Proof.
  intros H. apply Z.le_antisymm; apply round_half_even_mono; rewrite H; apply Qle_refl.
Qed.

Lemma Qabs_pos_eq x : 0 < x -> Qabs x = x.
Proof.
  destruct x as [n d]. unfold Qlt. simpl. intros H. f_equal. lia.
Qed.

Lemma Qabs_opp_eq x : Qabs (- x) = Qabs x.
Proof. destruct x as [n d]. simpl. f_equal. lia. Qed.

Lemma ulp_exp_opp x : ulp_exp (- x) = ulp_exp x.
Proof. unfold ulp_exp. now rewrite Qabs_opp_eq. Qed.

Lemma ulp_exp_mono x y : 0 < x -> x <= y -> (ulp_exp x <= ulp_exp y)%Z.
Proof.
  intros Hx Hxy. assert (0 < y) as Hy by (eapply Qlt_le_trans; eauto).
  unfold ulp_exp. rewrite !Qabs_pos_eq by assumption.
  pose proof (ilog2_mono x y Hx Hxy). lia.
Qed.

(** The significand of a positive number is below 2^53, and at least 2^52
    above the subnormal range. *)
Lemma significand_lt x : 0 < x -> x / 2 ^ ulp_exp x < inject_Z (2 ^ 53).
Proof.
  intros Hx. apply Qlt_shift_div_r; [apply pow2_pos|].
  rewrite <- pow2_Z by lia. rewrite <- Qpower_plus by discriminate.
  destruct (ilog2_spec x Hx) as [_ Hhi]. eapply Qlt_le_trans; [exact Hhi|].
  apply pow2_le. unfold ulp_exp. rewrite Qabs_pos_eq by assumption. lia.
Qed.

Lemma significand_ge x :
  0 < x -> (-1074 < ulp_exp x)%Z -> inject_Z (2 ^ 52) <= x / 2 ^ ulp_exp x.
Proof.
  intros Hx He. apply Qle_shift_div_l; [apply pow2_pos|].
  rewrite <- pow2_Z by lia. rewrite <- Qpower_plus by discriminate.
  destruct (ilog2_spec x Hx) as [Hlo _]. eapply Qle_trans; [|exact Hlo].
  apply pow2_le. unfold ulp_exp in *. rewrite Qabs_pos_eq in * by assumption. lia.
Qed.

Lemma binary64_nonneg x : 0 <= x -> 0 <= binary64 x.
Proof.
  intros Hx. unfold binary64. apply Qmult_le_0_compat; [|apply Qlt_le_weak, pow2_pos].
  change 0 with (inject_Z 0). rewrite <- Zle_Qle. apply round_half_even_ge.
  apply Qle_shift_div_l; [apply pow2_pos|]. change (inject_Z 0) with 0.
  now rewrite Qmult_0_l.
Qed.

Lemma binary64_nonpos x : x <= 0 -> binary64 x <= 0.
Proof.
  intros Hx. unfold binary64.
  assert (inject_Z (round_half_even (x / 2 ^ ulp_exp x)) <= 0) as H.
  { change 0 with (inject_Z 0). rewrite <- Zle_Qle. apply round_half_even_le.
    apply Qle_shift_div_r; [apply pow2_pos|]. change (inject_Z 0) with 0.
    now rewrite Qmult_0_l. }
  apply Qle_trans with (0 * 2 ^ ulp_exp x).
  - apply Qmult_le_compat_r; [exact H|apply Qlt_le_weak, pow2_pos].
  - rewrite Qmult_0_l. apply Qle_refl.
Qed.

Lemma binary64_mono_pos x y : 0 < x -> x <= y -> binary64 x <= binary64 y.
Proof.
  intros Hx Hxy. assert (0 < y) as Hy by (eapply Qlt_le_trans; eauto).
  pose proof (ulp_exp_mono x y Hx Hxy) as He. unfold binary64.
  destruct (Z.eq_dec (ulp_exp x) (ulp_exp y)) as [E|NE].
  - rewrite <- E. apply Qmult_le_compat_r; [|apply Qlt_le_weak, pow2_pos].
    rewrite <- Zle_Qle. apply round_half_even_mono.
    apply Qmult_le_compat_r; [exact Hxy|apply Qlt_le_weak, Qinv_lt_0_compat, pow2_pos].
  - apply Qle_trans with (inject_Z (2 ^ 53) * 2 ^ ulp_exp x).
    + apply Qmult_le_compat_r; [|apply Qlt_le_weak, pow2_pos].
      rewrite <- Zle_Qle. apply round_half_even_le, Qlt_le_weak, significand_lt, Hx.
    + apply Qle_trans with (inject_Z (2 ^ 52) * 2 ^ ulp_exp y).
      * apply Qle_trans with (inject_Z (2 ^ 52) * 2 ^ (ulp_exp x + 1)).
        -- rewrite pow2_succ. change (2 ^ 53)%Z with (2 ^ 52 * 2)%Z.
           rewrite inject_Z_mult. apply Qle_lteq. right. simpl. ring.
        -- apply Qmult_le_l; [reflexivity|]. apply pow2_le. lia.
      * apply Qmult_le_compat_r; [|apply Qlt_le_weak, pow2_pos].
        rewrite <- Zle_Qle. apply round_half_even_ge, significand_ge; [exact Hy|].
        assert (-1074 <= ulp_exp x)%Z by (unfold ulp_exp; lia). lia.
Qed.

Lemma Qdiv_opp x p : x / p == - (- x / p).
Proof. unfold Qdiv. ring. Qed.

Lemma binary64_mono_neg x y : y < 0 -> x <= y -> binary64 x <= binary64 y.
Proof.
  intros Hy Hxy. assert (x < 0) as Hx by (eapply Qle_lt_trans; eauto).
  assert (0 < - y) as Hy' by lra. assert (0 < - x) as Hx' by lra.
  assert (- y <= - x) as Hxy' by lra.
  pose proof (ulp_exp_mono _ _ Hy' Hxy') as He. rewrite !ulp_exp_opp in He.
  unfold binary64. destruct (Z.eq_dec (ulp_exp x) (ulp_exp y)) as [E|NE].
  - rewrite <- E. apply Qmult_le_compat_r; [|apply Qlt_le_weak, pow2_pos].
    rewrite <- Zle_Qle. apply round_half_even_mono.
    apply Qmult_le_compat_r; [exact Hxy|apply Qlt_le_weak, Qinv_lt_0_compat, pow2_pos].
  - apply Qle_trans with (inject_Z (- 2 ^ 52) * 2 ^ ulp_exp x).
    + apply Qmult_le_compat_r; [|apply Qlt_le_weak, pow2_pos].
      rewrite <- Zle_Qle. apply round_half_even_le.
      rewrite Qdiv_opp, inject_Z_opp. apply Qopp_le_compat.
      rewrite <- (ulp_exp_opp x). apply significand_ge; [exact Hx'|].
      rewrite ulp_exp_opp. assert (-1074 <= ulp_exp y)%Z by (unfold ulp_exp; lia). lia.
    + apply Qle_trans with (inject_Z (- 2 ^ 53) * 2 ^ ulp_exp y).
      * apply Qle_trans with (inject_Z (- 2 ^ 52) * 2 ^ (ulp_exp y + 1)).
        -- assert (2 ^ (ulp_exp y + 1) <= 2 ^ ulp_exp x) as Hp by (apply pow2_le; lia).
           generalize dependent (2 ^ (ulp_exp y + 1)). generalize dependent (2 ^ ulp_exp x).
           intros p q Hp. change (inject_Z (- 2 ^ 52)) with (- inject_Z (2 ^ 52)).
           assert (0 < inject_Z (2 ^ 52)) as Hc by reflexivity.
           generalize dependent (inject_Z (2 ^ 52)). intros c Hc. clear - Hp Hc. nra.
        -- rewrite pow2_succ. change (- 2 ^ 53)%Z with (- 2 ^ 52 * 2)%Z.
           rewrite inject_Z_mult. apply Qle_lteq. right. simpl. ring.
      * apply Qmult_le_compat_r; [|apply Qlt_le_weak, pow2_pos].
        rewrite <- Zle_Qle. apply round_half_even_ge.
        rewrite (Qdiv_opp y), inject_Z_opp. apply Qopp_le_compat.
        rewrite <- (ulp_exp_opp y). apply Qlt_le_weak, significand_lt, Hy'.
Qed.

(** Rounding to the nearest double preserves order. *)
Lemma binary64_mono x y : x <= y -> binary64 x <= binary64 y.
Proof.
  intros Hxy. destruct (Qlt_le_dec 0 x) as [Hx|Hx].
  - now apply binary64_mono_pos.
  - destruct (Qlt_le_dec y 0) as [Hy|Hy].
    + now apply binary64_mono_neg.
    + apply Qle_trans with 0; [now apply binary64_nonpos|now apply binary64_nonneg].
Qed.

(** The multiples of 2^-10 below 2^43 in magnitude are doubles. *)
Lemma binary64_grid z : (Z.abs z < 2 ^ 53)%Z -> binary64 (z # 1024) == z # 1024.
Proof.
  intros Hz. destruct (Z.eq_dec z 0%Z) as [->|Hnz]; [reflexivity|].
  set (e := ulp_exp (z # 1024)).
  assert (-1074 <= e <= -10)%Z as He.
  { unfold e, ulp_exp. split; [lia|]. apply Z.max_lub; [|lia].
    assert (0 < Qabs (z # 1024)) as Hpos by (unfold Qlt; simpl; lia).
    destruct (ilog2_spec _ Hpos) as [Hlo _].
    assert (Qabs (z # 1024) < 2 ^ 43) as Hhi.
    { rewrite pow2_Z by lia. unfold Qlt. simpl. lia. }
    assert (ilog2 (Qabs (z # 1024)) < 43)%Z; [|lia].
    apply pow2_lt_inv. eapply Qle_lt_trans; eauto. }
  assert ((z # 1024) / 2 ^ e == inject_Z (z * 2 ^ (-10 - e))) as Hsig.
  { rewrite inject_Z_mult, <- pow2_Z by lia.
    rewrite Qpower_minus by discriminate. change (2 ^ (-10)) with (1 # 1024).
    rewrite (Qmake_Qdiv z 1024). field. apply Qnot_eq_sym, Qlt_not_eq, pow2_pos. }
  unfold binary64. fold e. rewrite (round_half_even_comp _ _ Hsig), round_half_even_Z.
  rewrite inject_Z_mult, <- pow2_Z by lia.
  rewrite Qpower_minus by discriminate. change (2 ^ (-10)) with (1 # 1024).
  rewrite (Qmake_Qdiv z 1024). field. apply Qnot_eq_sym, Qlt_not_eq, pow2_pos.
Qed.

(** Two nested roundings of [d - ms / 1000], for any rounding that preserves
    order and leaves the multiples of 2^-10 unchanged. *)
Section Rounding.
Variable rnd : Q -> Q.
Hypothesis rnd_mono : forall x y, x <= y -> rnd x <= rnd y.
Hypothesis rnd_grid : forall z, (Z.abs z < 2 ^ 53)%Z -> rnd (z # 1024) == z # 1024.

Lemma rnd_proper x y : x == y -> rnd x == rnd y.
Proof. intros H. apply Qle_antisym; apply rnd_mono; rewrite H; apply Qle_refl. Qed.

Lemma rnd_near (d k : Z) :
  (Z.abs d < 2 ^ 42)%Z -> (Z.abs k <= 2048)%Z ->
  rnd (inject_Z d + (k # 1024)) == inject_Z d + (k # 1024).
Proof.
  intros Hd Hk. assert (inject_Z d + (k # 1024) == (1024 * d + k # 1024)) as E.
  { unfold Qeq, Qplus, inject_Z. cbn [Qnum Qden]. lia. }
  rewrite (rnd_proper _ _ E), rnd_grid; [symmetry; exact E|lia].
Qed.

Lemma rnd_int d : (Z.abs d < 2 ^ 42)%Z -> rnd (inject_Z d) == inject_Z d.
Proof.
  intros Hd. assert (inject_Z d == inject_Z d + (0 # 1024)) as E.
  { unfold Qeq, Qplus, inject_Z. cbn [Qnum Qden]. lia. }
  rewrite (rnd_proper _ _ E), rnd_near; [symmetry; exact E|lia..].
Qed.

Lemma rounded_difference d ms :
  (Z.abs d < 2 ^ 42)%Z ->
  Qabs (rnd (rnd (inject_Z d) - rnd (inject_Z ms / 1000))) < 2
  <-> (Z.abs (ms - 1000 * d) < 2000)%Z.
Proof.
  intros Hd.
  pose proof (rnd_int d Hd) as Ed.
  pose proof (fun k => rnd_near d k Hd) as G.
  assert (G' : forall k, (Z.abs k <= 2048)%Z -> rnd (k # 1024) == k # 1024)
    by (intros k Hk; apply rnd_grid; lia).
  assert (HX : (inject_Z ms / 1000) * 1000 == inject_Z ms) by field.
  generalize dependent (inject_Z ms / 1000). intros X HX.
  rewrite Qabs_Qlt_condition.
  destruct (Z_lt_le_dec (ms - 1000 * d) 2000) as [Hlt|Hge];
    [destruct (Z_lt_le_dec (-2000) (ms - 1000 * d)) as [Hgt|Hle]|].
  - split; [intros _; lia|intros _].
    assert (inject_Z ms <= 1000 * inject_Z d + 1999) as H
      by (unfold Qle, Qplus, Qmult, inject_Z; cbn [Qnum Qden]; lia).
    assert (1000 * inject_Z d + - (1999) <= inject_Z ms) as H0
      by (unfold Qle, Qplus, Qopp, Qmult, inject_Z; cbn [Qnum Qden]; lia).
    assert (rnd X <= inject_Z d + (2047 # 1024)) as Hhi.
    { rewrite <- (G 2047%Z) by lia. apply rnd_mono. clear - HX H. lra. }
    assert (inject_Z d + (-2047 # 1024) <= rnd X) as Hlo.
    { rewrite <- (G (-2047)%Z) by lia. apply rnd_mono. clear - HX H0. lra. }
    assert (rnd (rnd (inject_Z d) - rnd X) <= (2047 # 1024)) as Hhi'.
    { rewrite <- (G' 2047%Z) by lia. apply rnd_mono. rewrite Ed. clear - Hlo. lra. }
    assert ((-2047 # 1024) <= rnd (rnd (inject_Z d) - rnd X)) as Hlo'.
    { rewrite <- (G' (-2047)%Z) by lia. apply rnd_mono. rewrite Ed. clear - Hhi. lra. }
    clear - Hhi' Hlo'. split; lra.
  - split; [|lia]. intros Habs. exfalso.
    assert (inject_Z ms <= 1000 * inject_Z d + - (2000)) as H
      by (unfold Qle, Qplus, Qopp, Qmult, inject_Z; cbn [Qnum Qden]; lia).
    assert (rnd X <= inject_Z d + (-2048 # 1024)) as Hhi.
    { rewrite <- (G (-2048)%Z) by lia. apply rnd_mono. clear - HX H. lra. }
    assert ((2048 # 1024) <= rnd (rnd (inject_Z d) - rnd X)) as Hlo'.
    { rewrite <- (G' 2048%Z) by lia. apply rnd_mono. rewrite Ed. clear - Hhi. lra. }
    clear - Habs Hlo'. lra.
  - split; [|lia]. intros Habs. exfalso.
    assert (1000 * inject_Z d + 2000 <= inject_Z ms) as H
      by (unfold Qle, Qplus, Qmult, inject_Z; cbn [Qnum Qden]; lia).
    assert (inject_Z d + (2048 # 1024) <= rnd X) as Hlo.
    { rewrite <- (G 2048%Z) by lia. apply rnd_mono. clear - HX H. lra. }
    assert (rnd (rnd (inject_Z d) - rnd X) <= (-2048 # 1024)) as Hhi'.
    { rewrite <- (G' (-2048)%Z) by lia. apply rnd_mono. rewrite Ed. clear - Hlo. lra. }
    clear - Habs Hhi'. lra.
Qed.
End Rounding.

Lemma Qltb_lt x y : Qltb x y = true <-> x < y.
Proof.
  unfold Qltb. rewrite negb_true_iff. split.
  - intros H. apply Qnot_le_lt. intros Hle%Qle_bool_iff. congruence.
  - intros H. destruct (Qle_bool y x) eqn:E; [|reflexivity].
    apply Qle_bool_iff in E. now apply Qlt_not_le in H.
Qed.

(** The duration signal in whole milliseconds. *)
Lemma duration_match_ms tidal_track spotify_track :
  (Z.abs (Tidal.duration tidal_track) < 2 ^ 42)%Z ->
  duration_match tidal_track spotify_track 2 = true
  <-> (Z.abs (Spotify.duration_ms spotify_track - 1000 * Tidal.duration tidal_track) < 2000)%Z.
Proof.
  intros Hd. unfold duration_match. rewrite Qltb_lt.
  now apply (rounded_difference binary64 binary64_mono binary64_grid).
Qed.

(** The same comparison on the exact quotient. *)
Lemma exact_difference_ms (d ms : Z) :
  Qabs (inject_Z ms / 1000 - inject_Z d) < 2 <-> (Z.abs (ms - 1000 * d) < 2000)%Z.
Proof.
  rewrite Qabs_Qlt_condition.
  unfold Qlt, Qminus, Qplus, Qopp, Qdiv, Qmult, Qinv, inject_Z. cbn [Qnum Qden]. lia.
Qed.
End Floats.

(** On durations from 3 seconds to about 12 days, with differences around 0 and
    around 2 seconds, [binary64] gives the double the primitive floats
    give. *)
Example binary64_agrees_with_primitive_floats :
  forallb (fun seconds =>
    forallb (fun delta =>
      Qeq_bool (primitive_difference seconds (1000 * seconds + 2000 + delta))
               (modelled_difference seconds (1000 * seconds + 2000 + delta)))
      [-4001; -4000; -3999; -2001; -2000; -1999; -1; 0; 1; 7; 333])%Z
    [3; 61; 200; 202; 3599; 86400; 1048577]%Z = true.
Proof. by vm_compute. Qed.

(** C6 (counterexample).  The comparison is made on floats, and for very
    long tracks their rounding decides: with a candidate of 2^44 seconds and
    a source track 1.999 seconds longer, the difference the program computes
    is the double 2.0, and the signal does not hold although the durations
    differ by less than 2 seconds.  The primitive floats give the same
    difference. *)
Lemma duration_match_rounding :
  (Qabs (inject_Z (Spotify.duration_ms (spotify_of_duration (1000 * 2 ^ 44 + 1999))) / 1000
         - inject_Z (Tidal.duration (tidal_of_duration (2 ^ 44)))) < 2)%Q
  /\ Z.abs (Spotify.duration_ms (spotify_of_duration (1000 * 2 ^ 44 + 1999))
            - 1000 * Tidal.duration (tidal_of_duration (2 ^ 44))) = 1999%Z
  /\ duration_match (tidal_of_duration (2 ^ 44))
       (spotify_of_duration (1000 * 2 ^ 44 + 1999)) 2 = false
  /\ Qeq_bool (primitive_difference (2 ^ 44) (1000 * 2 ^ 44 + 1999)) 2 = true.
Proof. repeat split; by vm_compute. Qed.

(** C6 (amended).  For tracks of less than 2^42 seconds, the duration signal
    holds exactly when the source duration in seconds ([duration_ms / 1000])
    and the candidate duration differ by less than 2 seconds, the comparison
    being strict: a difference of exactly 2.000 seconds does not match, a
    difference of 1.999 seconds does.  (The rounding of the float operations
    does not change the verdict in that range.) *)
Theorem duration_match_strict tidal_track spotify_track :
  (Z.abs (Tidal.duration tidal_track) < 2 ^ 42)%Z ->
  (duration_match tidal_track spotify_track 2 = true
   <-> (Qabs (inject_Z (Spotify.duration_ms spotify_track) / 1000
              - inject_Z (Tidal.duration tidal_track)) < 2)%Q)
  /\ (Z.abs (Spotify.duration_ms spotify_track - 1000 * Tidal.duration tidal_track) = 2000%Z
      -> duration_match tidal_track spotify_track 2 = false)
  /\ (Z.abs (Spotify.duration_ms spotify_track - 1000 * Tidal.duration tidal_track) = 1999%Z
      -> duration_match tidal_track spotify_track 2 = true).
Proof.
  intros Hd. pose proof (duration_match_ms tidal_track spotify_track Hd) as Hms.
  split; [|split].
  - rewrite exact_difference_ms. exact Hms.
  - intros H. apply not_true_is_false. rewrite Hms. lia.
  - intros H. apply Hms. lia.
Qed.

Lemma duration_match_strict_witness :
  (Z.abs (Tidal.duration (tidal_of_duration 202)) < 2 ^ 42)%Z
  /\ ((Z.abs (Spotify.duration_ms (spotify_of_duration 200000)
              - 1000 * Tidal.duration (tidal_of_duration 202)) = 2000)%Z
      /\ duration_match (tidal_of_duration 202) (spotify_of_duration 200000) 2 = false)
  /\ ((Z.abs (Spotify.duration_ms (spotify_of_duration 200001)
              - 1000 * Tidal.duration (tidal_of_duration 202)) = 1999)%Z
      /\ duration_match (tidal_of_duration 202) (spotify_of_duration 200001) 2 = true).
Proof.
  assert (Hd : (Z.abs (Tidal.duration (tidal_of_duration 202)) < 2 ^ 42)%Z) by reflexivity.
  assert (H0 : (Z.abs (Spotify.duration_ms (spotify_of_duration 200000)
                       - 1000 * Tidal.duration (tidal_of_duration 202)) = 2000)%Z)
    by reflexivity.
  assert (H1 : (Z.abs (Spotify.duration_ms (spotify_of_duration 200001)
                       - 1000 * Tidal.duration (tidal_of_duration 202)) = 1999)%Z)
    by reflexivity.
  exact (conj Hd
          (conj (conj H0 (proj1 (proj2 (duration_match_strict _ (spotify_of_duration 200000) Hd)) H0))
                (conj H1 (proj2 (proj2 (duration_match_strict _ (spotify_of_duration 200001) Hd)) H1)))).
Defined.

(** ** The resolver *)

(** C7.  The search query of [tidal_search] is the normalized title when
    that is longer than 25 characters; when it has at most 25 characters the
    query is the normalized name of the first artist, a space, and the
    normalized title.  For the title "Yes" the query is the first artist's
    normalized name followed by " yes". *)
Theorem search_query_spec lib spotify_track :
  ((25 < length (simplify (table lib) (Spotify.name spotify_track)))%nat ->
   search_query lib spotify_track = Ok (simplify (table lib) (Spotify.name spotify_track)))
  /\ (forall artist others,
        (length (simplify (table lib) (Spotify.name spotify_track)) <= 25)%nat ->
        Spotify.artists spotify_track = artist :: others ->
        search_query lib spotify_track
        = Ok (simplify (table lib) artist ++ str " "
              ++ simplify (table lib) (Spotify.name spotify_track)))
  /\ (forall artist others,
        Spotify.name spotify_track = str "Yes" ->
        Spotify.artists spotify_track = artist :: others ->
        search_query lib spotify_track = Ok (simplify (table lib) artist ++ str " yes")).
Proof.
  unfold search_query. repeat split.
  - intros H. by apply Nat.leb_gt in H as ->.
  - intros artist others H ->. by apply Nat.leb_le in H as ->.
  - intros artist others -> ->. by vm_compute.
Qed.

Lemma search_query_spec_witness :
  ((25 < length (simplify (table (constant_scores 0 0 0)) (Spotify.name spotify_long)))%nat
   /\ search_query (constant_scores 0 0 0) spotify_long
      = Ok (str "supercalifragilisticexpialidocious"))
  /\ ((length (simplify (table (constant_scores 0 0 0)) (Spotify.name spotify_a)) <= 25)%nat
      /\ Spotify.artists spotify_a = [str "Beyonc" ++ [233]]
      /\ search_query (constant_scores 0 0 0) spotify_a = Ok (str "beyonce yes")).
Proof.
  assert (H1 : (25 < length (simplify (table (constant_scores 0 0 0))
                               (Spotify.name spotify_long)))%nat) by (vm_compute; lia).
  assert (H2 : (length (simplify (table (constant_scores 0 0 0))
                          (Spotify.name spotify_a)) <= 25)%nat) by (vm_compute; lia).
  assert (H3 : Spotify.artists spotify_a = [str "Beyonc" ++ [233]]) by reflexivity.
  exact (conj (conj H1 (proj1 (search_query_spec _ _) H1))
              (conj H2 (conj H3 (proj1 (proj2 (search_query_spec _ _)) _ _ H2 H3)))).
Defined.

(** ** The worker pool *)

Section Pool.
Context {A B : Type} (f : A -> result B) (xs : list A).

Lemma pool_state_snoc l i : pool_state f xs (l ++ [i]) = deliver f xs (pool_state f xs l) i.
Proof. unfold pool_state. by rewrite fold_left_app. Qed.

Lemma pool_slots_length l : length (pool_state f xs l).1 = length xs.
Proof.
  induction l as [|i l IH] using rev_ind; [by rewrite <- (length_replicate (length xs) (@None B))|].
  rewrite pool_state_snoc. unfold deliver.
  destruct (xs !! i); [|done]. destruct (f a); simpl; [by rewrite length_insert|done].
Qed.

(** A slot only ever holds the result of its own task. *)
Lemma pool_slots_sound l i b :
  (pool_state f xs l).1 !! i = Some (Some b) -> exists x, xs !! i = Some x /\ f x = Ok b.
Proof.
  induction l as [|j l IH] using rev_ind.
  - intros [? _]%lookup_replicate. done.
  - rewrite pool_state_snoc. unfold deliver.
    destruct (xs !! j) as [x|] eqn:Hj; [|done].
    destruct (f x) as [b'|e] eqn:Hx; simpl; [|done].
    destruct (decide (i = j)) as [->|Hne].
    + rewrite list_lookup_insert_eq.
      * intros [= ->]. eauto.
      * rewrite pool_slots_length. by eapply lookup_lt_Some.
    + by rewrite list_lookup_insert_ne.
Qed.

(** The result of a task that has completed is in its slot. *)
Lemma pool_slots_complete l i x b :
  i ∈ l -> xs !! i = Some x -> f x = Ok b -> (pool_state f xs l).1 !! i = Some (Some b).
Proof.
  intros Hi Hx Hb. induction l as [|j l IH] using rev_ind; [by apply elem_of_nil in Hi|].
  rewrite pool_state_snoc. unfold deliver.
  destruct (decide (i = j)) as [<-|Hne].
  - rewrite Hx, Hb. simpl. apply list_lookup_insert_eq.
    rewrite pool_slots_length. by eapply lookup_lt_Some.
  - apply elem_of_app in Hi as [Hi|Hi%list_elem_of_singleton]; [|done].
    destruct (xs !! j) as [y|]; [|by apply IH].
    destruct (f y); simpl; [|by apply IH].
    rewrite list_lookup_insert_ne by done. by apply IH.
Qed.

(** No exception is kept exactly when no completed task raised. *)
Lemma pool_failure_None l :
  (pool_state f xs l).2 = None <-> forall i x e, i ∈ l -> xs !! i = Some x -> f x <> Raise e.
Proof.
  induction l as [|j l IH] using rev_ind.
  - split; [|done]. by intros _ i x e ?%elem_of_nil.
  - rewrite pool_state_snoc. unfold deliver.
    destruct (xs !! j) as [y|] eqn:Hj; [destruct (f y) as [b|e] eqn:Hy|]; simpl.
    + rewrite IH. split; intros H i x e' Hi Hx.
      * apply elem_of_app in Hi as [Hi|Hi%list_elem_of_singleton]; [by apply (H i x e')|].
        subst i. rewrite Hj in Hx. injection Hx as <-. by rewrite Hy.
      * apply (H i); [|done]. apply elem_of_app. by left.
    + split; [done|]. intros H. destruct (H j y e); [|done..].
      apply elem_of_app. right. by left.
    + rewrite IH. split; intros H i x e' Hi Hx.
      * apply elem_of_app in Hi as [Hi|Hi%list_elem_of_singleton]; [by apply (H i x e')|].
        subst i. by rewrite Hj in Hx.
      * apply (H i); [|done]. apply elem_of_app. by left.
Qed.

Lemma pool_map_covered completion :
  completion ≡ₚ seq 0 (length xs) ->
  forallb (fun i => bool_decide (i ∈ completion)) (seq 0 (length xs)) = true.
Proof.
  intros Hperm. apply forallb_forall. intros i Hi%list_elem_of_In.
  apply bool_decide_eq_true. by rewrite Hperm.
Qed.

(** Whenever [Pool.map] returns, the value at position [i] is the result
    of the task on [xs !! i]. *)
Lemma pool_map_Ok_inv completion ys :
  pool_map f xs completion = Some (Ok ys) -> Forall2 (fun x y => f x = Ok y) xs ys.
Proof.
  unfold pool_map.
  destruct (forallb _ _); [|done].
  destruct (pool_state f xs completion).2 eqn:E; [done|].
  destruct (mapM id (pool_state f xs completion).1) as [ys'|] eqn:Hm; [|done].
  intros [= ->]. apply mapM_Some in Hm.
  apply Forall2_same_length_lookup. split.
  - rewrite <- (pool_slots_length completion). by eapply Forall2_length.
  - intros i x y Hx Hy.
    destruct (Forall2_lookup_r _ _ _ _ _ Hm Hy) as (o & Ho & Hid). simpl in Hid. subst o.
    apply pool_slots_sound in Ho as (x' & Hx' & Hb). congruence.
Qed.

(** When every task returns, [Pool.map] returns their results in the order
    of the tasks, whatever the order of completion. *)
Lemma pool_map_Ok completion ys :
  completion ≡ₚ seq 0 (length xs) ->
  Forall2 (fun x y => f x = Ok y) xs ys ->
  pool_map f xs completion = Some (Ok ys).
Proof.
  intros Hperm Hall. unfold pool_map.
  rewrite pool_map_covered by done.
  assert ((pool_state f xs completion).2 = None) as ->.
  { apply pool_failure_None. intros i x e _ Hx.
    destruct (Forall2_lookup_l _ _ _ _ _ Hall Hx) as (y & _ & ->). done. }
  assert ((pool_state f xs completion).1 = Some <$> ys) as ->.
  { apply list_eq. intros i. rewrite list_lookup_fmap.
    destruct (ys !! i) as [y|] eqn:Hy; simpl.
    - destruct (Forall2_lookup_r _ _ _ _ _ Hall Hy) as (x & Hx & Hb).
      apply pool_slots_complete with x; [|done..].
      rewrite Hperm. apply elem_of_seq. apply lookup_lt_Some in Hx. lia.
    - apply lookup_ge_None. rewrite pool_slots_length.
      rewrite (Forall2_length _ _ _ Hall). by apply lookup_ge_None. }
  by rewrite mapM_fmap_Some.
Qed.

(** When a task raises, [Pool.map] raises, whatever the order of
    completion and whatever the other tasks return. *)
Lemma pool_map_Raise completion i x e :
  completion ≡ₚ seq 0 (length xs) ->
  xs !! i = Some x -> f x = Raise e ->
  exists e', pool_map f xs completion = Some (Raise e').
Proof.
  intros Hperm Hx He. unfold pool_map.
  rewrite pool_map_covered by done.
  destruct (pool_state f xs completion).2 as [e'|] eqn:E; [by eauto|].
  exfalso. eapply (proj1 (pool_failure_None completion)); [done| |done..].
  rewrite Hperm. apply elem_of_seq. apply lookup_lt_Some in Hx. lia.
Qed.
End Pool.

(** ** The resolution phase *)

(** Writing the values [ys] one by one into a list of the same length, each
    at its index, gives [ys]. *)
Lemma assign_all {A} (ys pre rest : list A) :
  length rest = length ys ->
  fold_left (fun results '(index, result) =>
               results <-- results ;; list_assign results index result)
            (imap (fun i y => (length pre + i, y)%nat) ys) (Ok (pre ++ rest))
  = Ok (pre ++ ys).
Proof.
  revert pre rest. induction ys as [|y ys IH]; intros pre rest Hlen.
  - destruct rest; [done|discriminate].
  - destruct rest as [|r rest]; [discriminate|]. injection Hlen as Hlen.
    rewrite imap_cons. cbn [fold_left bind_result]. unfold list_assign at 2.
    replace (length pre + 0 <? length (pre ++ r :: rest))%nat with true
      by (symmetry; apply Nat.ltb_lt; rewrite length_app; simpl; lia).
    rewrite insert_app_r. cbn [list_insert insert].
    replace (pre ++ y :: rest) with ((pre ++ [y]) ++ rest) by (by rewrite <- app_assoc).
    replace (pre ++ y :: ys) with ((pre ++ [y]) ++ ys) by (by rewrite <- app_assoc).
    rewrite <- (IH (pre ++ [y]) rest Hlen). f_equal.
    apply imap_ext. intros i x _. simpl. f_equal. rewrite length_app. simpl. lia.
Qed.

Section Resolution.
Variable lib : libraries.
Variable tidal_session : session.

Lemma call_async_pool spotify_tracks completion outcomes :
  call_async lib spotify_tracks tidal_session completion = Some (Ok outcomes)
  <-> pool_map (fun t => tidal_search lib t tidal_session) spotify_tracks completion
      = Some (Ok outcomes).
Proof.
  unfold call_async.
  destruct (pool_map _ spotify_tracks completion) as [[ys|e]|] eqn:E; simpl; [|done..].
  apply pool_map_Ok_inv, Forall2_length in E.
  pose proof (assign_all ys [] (replicate (length spotify_tracks) None)) as H.
  simpl in H. change (imap _ ys) with (imap pair ys) in H.
  rewrite H by (by rewrite length_replicate).
  split; by intros [= ->].
Qed.

Lemma call_async_Raise spotify_tracks completion e :
  pool_map (fun t => tidal_search lib t tidal_session) spotify_tracks completion
  = Some (Raise e) ->
  call_async lib spotify_tracks tidal_session completion = Some (Raise e).
Proof. unfold call_async. by intros ->. Qed.

(** The first component of the loop of [sync_playlist] is the sync plan. *)
Lemma collect_plan outcomes : (collect outcomes).1 = sync_plan outcomes.
Proof.
  unfold collect.
  enough (forall (g : nat -> option Tidal.track -> nat * option Tidal.track) ids not_found,
            (forall i o, (g i o).2 = o) ->
            (fold_left (fun '(tidal_track_ids, not_found) '(index, tidal_track) =>
                          match tidal_track with
                          | Some t => (tidal_track_ids ++ [Tidal.id t], not_found)
                          | None => (tidal_track_ids, not_found ++ [S index])
                          end) (imap g outcomes) (ids, not_found)).1
            = ids ++ sync_plan outcomes) as H by (by apply (H pair [] [])).
  induction outcomes as [|o outcomes IH]; intros g ids not_found Hg.
  - simpl. by rewrite app_nil_r.
  - rewrite imap_cons. cbn [fold_left]. specialize (Hg 0%nat o) as Hgo.
    destruct (g 0%nat o) as [index o'] eqn:E. simpl in Hgo. subst o'.
    destruct o as [t|]; simpl.
    + rewrite IH by (intros; apply Hg). unfold sync_plan. simpl. by rewrite <- app_assoc.
    + rewrite IH by (intros; apply Hg). done.
Qed.
End Resolution.

(** C4.  Whatever the order in which the resolution tasks complete, the
    sequence [call_async] returns has the length of the sequence of source
    tracks and holds at position [i] the resolution of source track [i]; and
    it does return that sequence when every resolution returns. *)
Theorem call_async_in_order lib spotify_tracks tidal_session completion outcomes :
  completion ≡ₚ seq 0 (length spotify_tracks) ->
  (call_async lib spotify_tracks tidal_session completion = Some (Ok outcomes)
   <-> length outcomes = length spotify_tracks
       /\ forall i t, spotify_tracks !! i = Some t ->
            exists o, outcomes !! i = Some o /\ tidal_search lib t tidal_session = Ok o).
Proof.
  intros Hperm. rewrite call_async_pool. split.
  - intros H%pool_map_Ok_inv. split; [symmetry; by eapply Forall2_length|].
    intros i t Ht. destruct (Forall2_lookup_l _ _ _ _ _ H Ht) as (o & ? & ?). eauto.
  - intros [Hlen H]. apply pool_map_Ok; [done|].
    apply Forall2_same_length_lookup. split; [done|].
    intros i t o Ht Ho. destruct (H i t Ht) as (o' & Ho' & ?). congruence.
Qed.

Lemma call_async_in_order_witness :
  [1; 0]%nat ≡ₚ seq 0 (length [spotify_a; spotify_long])
  /\ call_async (constant_scores 100 100 0) [spotify_a; spotify_long]
       (one_track_catalogue []) [1; 0]%nat
     = Some (Ok [Some tidal_a; None]).
Proof.
  assert (Hperm : [1; 0]%nat ≡ₚ seq 0 (length [spotify_a; spotify_long]))
    by apply Permutation_swap.
  refine (conj Hperm
            (proj2 (call_async_in_order (constant_scores 100 100 0) [spotify_a; spotify_long]
                      (one_track_catalogue []) [1; 0]%nat [Some tidal_a; None] Hperm)
                   (conj eq_refl _))).
  intros [|[|i]] t [= <-]; eexists; (split; [reflexivity|by vm_compute]).
Defined.

(** ** Failing searches *)

(** C9 (counterexample).  The search fails for the first of two tracks:
    [call_async] raises the exception of the search, it returns no outcome
    for either track, and [sync_playlist] ends with the same exception. *)
Lemma failing_search_aborts :
  call_async (constant_scores 100 100 100) [spotify_a; spotify_b] (failing_search [])
    [0; 1]%nat = Some (Raise (HTTPError 500))
  /\ sync_playlist (constant_scores 100 100 100) [[Some spotify_a; Some spotify_b]]
       (failing_search []) 1 [0; 1]%nat
     = Some (Raise (HTTPError 500), failing_search []).
Proof. split; by vm_compute. Qed.

(** C9 (amended).  When the search call for one source track raises, the
    exception is not caught: whatever the order of completion and the
    resolutions of the other tracks, [call_async] raises and returns no
    outcome sequence, and [sync_playlist] ends with that exception and leaves
    the destination as it was, without the write. *)
Theorem search_failure_propagates lib pages tidal_session tidal_playlist completion i t query e :
  completion ≡ₚ seq 0 (length (get_tracks_from_spotify_playlist pages)) ->
  get_tracks_from_spotify_playlist pages !! i = Some t ->
  search_query lib t = Ok query ->
  search tidal_session query = Raise e ->
  exists e',
    call_async lib (get_tracks_from_spotify_playlist pages) tidal_session completion
    = Some (Raise e')
    /\ sync_playlist lib pages tidal_session tidal_playlist completion
       = Some (Raise e', tidal_session).
Proof.
  intros Hperm Ht Hq He.
  assert (tidal_search lib t tidal_session = Raise e) as Hsearch.
  { unfold tidal_search. rewrite Hq. simpl. by rewrite He. }
  destruct (pool_map_Raise (fun t => tidal_search lib t tidal_session)
              _ _ _ _ _ Hperm Ht Hsearch) as [e' He'].
  exists e'. apply call_async_Raise in He'. split; [done|].
  unfold sync_playlist. by rewrite He'.
Qed.

Lemma search_failure_propagates_witness :
  [1; 0]%nat ≡ₚ seq 0 (length (get_tracks_from_spotify_playlist
                                 [[Some spotify_b; None]; [Some spotify_a]]))
  /\ get_tracks_from_spotify_playlist [[Some spotify_b; None]; [Some spotify_a]] !! 1%nat
     = Some spotify_a
  /\ search_query (constant_scores 100 100 100) spotify_a = Ok (str "beyonce yes")
  /\ search (failing_search [7]) (str "beyonce yes") = Raise (HTTPError 500)
  /\ exists e',
       call_async (constant_scores 100 100 100)
         (get_tracks_from_spotify_playlist [[Some spotify_b; None]; [Some spotify_a]])
         (failing_search [7]) [1; 0]%nat = Some (Raise e')
       /\ sync_playlist (constant_scores 100 100 100)
            [[Some spotify_b; None]; [Some spotify_a]] (failing_search [7]) 1 [1; 0]%nat
          = Some (Raise e', failing_search [7]).
Proof.
  assert (H1 : [1; 0]%nat ≡ₚ seq 0 (length (get_tracks_from_spotify_playlist
                                              [[Some spotify_b; None]; [Some spotify_a]])))
    by apply Permutation_swap.
  assert (H2 : get_tracks_from_spotify_playlist [[Some spotify_b; None]; [Some spotify_a]]
               !! 1%nat = Some spotify_a) by reflexivity.
  assert (H3 : search_query (constant_scores 100 100 100) spotify_a = Ok (str "beyonce yes"))
    by (by vm_compute).
  assert (H4 : search (failing_search [7]) (str "beyonce yes") = Raise (HTTPError 500))
    by (by vm_compute).
  exact (conj H1 (conj H2 (conj H3 (conj H4
           (search_failure_propagates _ _ _ 1 _ _ _ _ _ H1 H2 H3 H4))))).
Defined.

(** ** The destination write *)


(** The write of [sync_playlist]: one [add] of the sync plan to the
    playlist, after the loop that collects the plan and the reports. *)
Lemma sync_playlist_add lib pages tidal_session tidal_playlist completion playlist outcomes :
  completion ≡ₚ seq 0 (length (get_tracks_from_spotify_playlist pages)) ->
  Forall2 (fun t o => tidal_search lib t tidal_session = Ok o)
    (get_tracks_from_spotify_playlist pages) outcomes ->
  playlists tidal_session !! tidal_playlist = Some playlist ->
  sync_playlist lib pages tidal_session tidal_playlist completion
  = Some match playlist_add tidal_session playlist (sync_plan outcomes) with
         | Ok playlist' =>
             (Ok (collect outcomes).2,
              {| search := search tidal_session;
                 add_tracks := add_tracks tidal_session;
                 playlists := <[tidal_playlist := playlist']> (playlists tidal_session) |})
         | Raise e => (Raise e, tidal_session)
         end.
Proof.
  intros Hperm Hall Hold. unfold sync_playlist.
  rewrite (proj2 (call_async_pool lib tidal_session _ completion outcomes))
    by (by apply pool_map_Ok).
  simpl. pose proof (collect_plan outcomes) as Hplan.
  destruct (collect outcomes) as [ids not_found]. simpl in Hplan. subst ids.
  unfold set_tidal_playlist. rewrite Hold.
  by destruct (playlist_add tidal_session playlist (sync_plan outcomes)).
Qed.

(** [playlist.add] on a plan that is not empty is the request to the
    service. *)
Lemma playlist_add_request tidal_session playlist track_ids :
  track_ids <> [] ->
  playlist_add tidal_session playlist track_ids
  = (tracks <-- add_tracks tidal_session (TidalPlaylist.tracks playlist) track_ids ;;
     Ok {| TidalPlaylist.name := TidalPlaylist.name playlist;
           TidalPlaylist.description := TidalPlaylist.description playlist;
           TidalPlaylist.tracks := tracks |}).
Proof. by destruct track_ids. Qed.



(** A service that skips duplicates keeps the tracks held and puts after
    them some of the tracks requested, in order: all of them when the
    request has no repeated track and none that is held. *)
Lemma add_skipping_duplicates_spec held track_ids :
  exists added,
    add_skipping_duplicates held track_ids = held ++ added
    /\ added `sublist_of` track_ids
    /\ (NoDup track_ids -> (forall x, x ∈ track_ids -> x ∉ held) -> added = track_ids).
Proof.
  unfold add_skipping_duplicates. revert held.
  induction track_ids as [|track_id track_ids IH]; intros held; simpl.
  - exists []. by rewrite app_nil_r.
  - destruct (decide (track_id ∈ held)) as [Hin|Hnin].
    + rewrite bool_decide_eq_true_2 by done. destruct (IH held) as (added & -> & Hsub & _).
      exists added. split; [done|]. split; [by apply sublist_cons|].
      intros _ Hfresh. destruct (Hfresh track_id); [by left|done].
    + rewrite bool_decide_eq_false_2 by done.
      destruct (IH (held ++ [track_id])) as (added & -> & Hsub & Hall).
      exists (track_id :: added). split; [by rewrite <- app_assoc|].
      split; [by apply sublist_skip|].
      intros [Hid Hnodup]%NoDup_cons Hfresh. f_equal. apply Hall; [done|].
      intros x Hx [Hheld|Heq%list_elem_of_singleton]%elem_of_app; [|by subst x].
      apply (Hfresh x); [by right|done].
Qed.

(** ** The playlist reconciler *)

(** Creating and deleting playlists leaves the catalogue search as it is. *)
Lemma tidal_search_same_search lib t tidal_session tidal_session' :
  search tidal_session' = search tidal_session ->
  tidal_search lib t tidal_session' = tidal_search lib t tidal_session.
Proof. intros H. unfold tidal_search. by rewrite H. Qed.

(** X17.  In a turn of the loop of [sync_list] in which the source playlist
    is fetched, the same-named playlist of the list fetched before the loop,
    if any, is still there to be deleted, and every resolution returns: the
    destination gets a new playlist with the name and the description of
    the source playlist and no track, and the sync plan is added to it.
    When the plan is empty (no track found), [add] raises [ValueError]: the
    turn ends with that exception and the new playlist stays, empty.  When
    it is not, the new playlist holds after the turn what the service makes
    of adding the plan to an empty playlist. *)
Lemma sync_list_step_plan lib spotify_session tidal_playlists tidal_session spotify_id
    completion spotify_playlist outcomes :
  spotify_session spotify_id = Ok spotify_playlist ->
  (forall playlist_id tidal_playlist,
     List.find (fun '(_, tidal_playlist) =>
                  bool_decide (TidalPlaylist.name tidal_playlist
                               = SpotifyPlaylist.name spotify_playlist)) tidal_playlists
     = Some (playlist_id, tidal_playlist) ->
     is_Some (playlists tidal_session !! playlist_id)) ->
  completion ≡ₚ seq 0 (length (get_tracks_from_spotify_playlist
                                 (SpotifyPlaylist.pages spotify_playlist))) ->
  Forall2 (fun t o => tidal_search lib t tidal_session = Ok o)
    (get_tracks_from_spotify_playlist (SpotifyPlaylist.pages spotify_playlist)) outcomes ->
  exists tidal_playlist created,
    playlists created !! tidal_playlist
    = Some {| TidalPlaylist.name := SpotifyPlaylist.name spotify_playlist;
              TidalPlaylist.description := SpotifyPlaylist.description spotify_playlist;
              TidalPlaylist.tracks := [] |}
    /\ (sync_plan outcomes = [] ->
        sync_list_step lib spotify_session tidal_playlists tidal_session spotify_id
          completion = Some (Raise ValueError, created))
    /\ (forall after,
          sync_plan outcomes <> [] ->
          add_tracks tidal_session [] (sync_plan outcomes) = Ok after ->
          exists not_found tidal_session',
            sync_list_step lib spotify_session tidal_playlists tidal_session spotify_id
              completion = Some (Ok not_found, tidal_session')
            /\ playlists tidal_session' !! tidal_playlist
               = Some {| TidalPlaylist.name := SpotifyPlaylist.name spotify_playlist;
                         TidalPlaylist.description :=
                           SpotifyPlaylist.description spotify_playlist;
                         TidalPlaylist.tracks := after |}).
Proof.
  intros Hfetch Hstale Hperm Hall. unfold sync_list_step. rewrite Hfetch.
  set (same_name := fun '(_, tidal_playlist) => _) in *.
  assert (exists tidal_session1,
            match List.find same_name tidal_playlists with
            | Some (playlist_id, _) => delete_playlist tidal_session playlist_id
            | None => Ok tidal_session
            end = Ok tidal_session1
            /\ search tidal_session1 = search tidal_session
            /\ add_tracks tidal_session1 = add_tracks tidal_session)
    as (s1 & -> & Hsearch & Hadd).
  { destruct (List.find same_name tidal_playlists) as [[playlist_id tp]|] eqn:E.
    - destruct (Hstale _ _ eq_refl) as [old Hold]. unfold delete_playlist. rewrite Hold.
      by eexists.
    - by eexists. }
  unfold create_playlist.
  set (new_id := fresh (dom (playlists s1))).
  set (s2 := {| search := search s1; add_tracks := add_tracks s1; playlists := _ |}).
  set (new := {| TidalPlaylist.name := SpotifyPlaylist.name spotify_playlist;
                 TidalPlaylist.description := SpotifyPlaylist.description spotify_playlist;
                 TidalPlaylist.tracks := [] |}).
  assert (playlists s2 !! new_id = Some new) as Hnew by apply lookup_insert_eq.
  rewrite (sync_playlist_add lib (SpotifyPlaylist.pages spotify_playlist) s2 new_id
             completion new outcomes); [|done| |done].
  2: { eapply Forall2_impl; [exact Hall|]. intros t o <-.
       apply tidal_search_same_search. by rewrite <- Hsearch. }
  exists new_id, s2. split; [done|]. split.
  - by intros ->.
  - intros after Hplan Hafter. rewrite playlist_add_request by done. simpl.
    rewrite Hadd, Hafter. simpl. eexists _, _. split; [done|].
    simpl. by rewrite lookup_insert_eq.
Qed.

(** * Further properties of the program *)

(** ** The normalizer *)

(** On a text of allowed characters, [simplify] changes nothing exactly when
    no step finds what it searches. *)
Lemma simplify_fixed_allowed table t :
  forallb allowed_char t = true -> simplify table t = t <-> settled t = true.
Proof.
  intros Ht. split.
  - rewrite simplify_scans, unidecode_allowed, lower_allowed by done.
    intros H%scans_fixed; [|apply steps_shrinking].
    unfold steps in H. cbn [map replacements regex app] in H.
    repeat match goal with H : Forall _ (_ :: _) |- _ => apply Forall_cons in H as [? H] end.
    unfold settled. cbn [forallb replacements].
    rewrite !andb_true_iff, !negb_true_iff. done.
  - intros H. rewrite simplify_steps, settled_before_feat by done.
    unfold settled in H. cbn [forallb replacements] in H.
    rewrite !andb_true_iff, !negb_true_iff in H. destruct H as (_ & _ & Hfeat & _).
    unfold re_sub at 2. rewrite scan_not_found by done.
    by apply re_sub_charset_id.
Qed.

Lemma lower_length s : length (lower s) = length s.
Proof. apply length_map. Qed.

Lemma lower_char_ascii c : is_ascii c = true -> is_ascii (lower_char c) = true.
Proof.
  unfold is_ascii, lower_char. intros H%N.ltb_lt.
  destruct ((65 <=? c) && (c <=? 90)) eqn:E; apply N.ltb_lt; [|done].
  apply andb_prop in E as [_ ?%N.leb_le]. lia.
Qed.

Lemma lower_char_idemp c : lower_char (lower_char c) = lower_char c.
Proof.
  unfold lower_char. destruct ((65 <=? c) && (c <=? 90)) eqn:E; [|by rewrite E].
  replace ((65 <=? c + 32) && (c + 32 <=? 90)) with false; [done|].
  symmetry. apply andb_false_iff. right. apply N.leb_gt.
  apply andb_prop in E as [?%N.leb_le _]. lia.
Qed.

Lemma unidecode_ascii table s : forallb is_ascii s = true -> unidecode table s = s.
Proof. unfold unidecode. by intros ->. Qed.

Lemma allowed_char_explicit c :
  allowed_char c = true -> 97 <= c <= 122 \/ 48 <= c <= 57 \/ c ∈ str "$!&?.'- ".
Proof.
  rewrite allowed_char_ranges. intros H.
  repeat (apply orb_prop in H as [H|H]);
    first [ apply andb_prop in H as [?%N.leb_le ?%N.leb_le]; lia
          | apply N.eqb_eq in H as ->; right; right; vm_compute; set_solver ].
Qed.

(** X1.  Whatever the input and the transliteration table, the text
    [simplify] returns is made of lowercase letters, digits and the
    characters [$], [!], [&], [?], [.], ['], [-] and space only: no
    uppercase letter, no parenthesis, no line feed. *)
Theorem simplify_charset table s :
  Forall (fun c => 97 <= c <= 122 \/ 48 <= c <= 57 \/ c ∈ str "$!&?.'- ")
    (simplify table s).
Proof.
  pose proof (simplify_allowed table s) as H. apply Forall_forall. intros c Hc.
  apply allowed_char_explicit. rewrite forallb_forall in H. by apply H, list_elem_of_In.
Qed.

(** X2.  [simplify] returns its input unchanged exactly when the input is
    made of allowed characters and holds no join marker, no edition word and
    no featuring clause. *)
Theorem simplify_fixed_iff table s :
  simplify table s = s <-> forallb allowed_char s = true /\ settled s = true.
Proof.
  split.
  - intros H. assert (forallb allowed_char s = true) as Hs.
    { rewrite <- H. apply simplify_allowed. }
    split; [done|]. by apply (simplify_fixed_allowed table).
  - intros [Hs H]. by apply simplify_fixed_allowed.
Qed.

(** X3.  [simplify] never returns more characters than [unidecode] gave it:
    every step after the transliteration keeps or shortens the text.  On
    ASCII input, which [unidecode] returns as it is, the result is at most
    as long as the input. *)
Theorem simplify_length table s :
  (length (simplify table s) <= length (unidecode table s))%nat
  /\ (forallb is_ascii s = true -> (length (simplify table s) <= length s)%nat).
Proof.
  assert (length (simplify table s) <= length (unidecode table s))%nat as H.
  { rewrite simplify_scans. etrans; [apply scans_length, steps_shrinking|].
    by rewrite lower_length. }
  split; [done|]. intros Hs. by rewrite unidecode_ascii in H.
Qed.

Lemma simplify_length_witness :
  forallb is_ascii (str "Song (feat. X)") = true
  /\ (length (simplify no_table (str "Song (feat. X)")) <= length (str "Song (feat. X)"))%nat.
Proof.
  assert (H : forallb is_ascii (str "Song (feat. X)") = true) by (by vm_compute).
  exact (conj H (proj2 (simplify_length no_table _) H)).
Defined.

Lemma simplify_lower table s :
  forallb is_ascii s = true -> simplify table (lower s) = simplify table s.
Proof.
  intros Hs. assert (forallb is_ascii (lower s) = true) as Hlower.
  { apply forallb_forall. intros c (d & <- & Hd)%in_map_iff.
    apply lower_char_ascii. rewrite forallb_forall in Hs. by apply Hs. }
  rewrite !simplify_scans, !unidecode_ascii by done. f_equal.
  unfold lower. rewrite map_map. apply map_ext. intros c. apply lower_char_idemp.
Qed.

(** X4.  On ASCII input [simplify] does not see the case of the letters:
    two ASCII texts that are equal once in lowercase have the same normal
    form; in particular lowercasing the input beforehand changes nothing. *)
Theorem simplify_ignores_case table s1 s2 :
  forallb is_ascii s1 = true -> forallb is_ascii s2 = true ->
  lower s1 = lower s2 ->
  simplify table s1 = simplify table s2
  /\ simplify table (lower s1) = simplify table s1.
Proof.
  intros H1 H2 Hlower. split; [|by apply simplify_lower].
  rewrite <- (simplify_lower table s1), <- (simplify_lower table s2) by done.
  by rewrite Hlower.
Qed.

Lemma simplify_ignores_case_witness :
  forallb is_ascii (str "SoNg - Radio Edit") = true
  /\ forallb is_ascii (str "song - RADIO EDIT") = true
  /\ lower (str "SoNg - Radio Edit") = lower (str "song - RADIO EDIT")
  /\ simplify no_table (str "SoNg - Radio Edit") = simplify no_table (str "song - RADIO EDIT").
Proof.
  assert (H1 : forallb is_ascii (str "SoNg - Radio Edit") = true) by (by vm_compute).
  assert (H2 : forallb is_ascii (str "song - RADIO EDIT") = true) by (by vm_compute).
  assert (H3 : lower (str "SoNg - Radio Edit") = lower (str "song - RADIO EDIT"))
    by (by vm_compute).
  exact (conj H1 (conj H2 (conj H3
           (proj1 (simplify_ignores_case no_table _ _ H1 H2 H3))))).
Defined.

(** ** The resolver *)

(** [List.find] returns the first element that passes the test. *)
Lemma find_first {A} (f : A -> bool) l x :
  List.find f l = Some x
  <-> exists before after, l = before ++ x :: after /\ f x = true
        /\ Forall (fun y => f y = false) before.
Proof.
  induction l as [|a l IH]; simpl.
  - split; [done|]. intros ([|??] & ? & ? & _); discriminate.
  - destruct (f a) eqn:E.
    + split.
      * intros [= ->]. by exists [], l.
      * intros ([|b before] & after & Hl & Hx & Hbefore); simplify_eq/=; [done|].
        apply Forall_cons in Hbefore as [? _]. congruence.
    + rewrite IH. split.
      * intros (before & after & -> & ? & ?). exists (a :: before), after.
        split; [done|]. split; [done|]. by constructor.
      * intros ([|b before] & after & Hl & Hx & Hbefore); simplify_eq/=; [congruence|].
        apply Forall_cons in Hbefore as [_ ?]. eauto.
Qed.

Lemma find_none_iff {A} (f : A -> bool) l :
  List.find f l = None <-> Forall (fun y => f y = false) l.
Proof.
  induction l as [|a l IH]; simpl; [done|].
  destruct (f a) eqn:E.
  - split; [done|]. intros [? _]%Forall_cons. congruence.
  - rewrite IH. split; [by constructor|by intros [_ ?]%Forall_cons].
Qed.

(** X5.  When the search returns, [tidal_search] gives the first candidate
    of the answer that matches, in the order of the answer: the candidates in
    front of it do not match, those after it are not looked at.  It gives
    [None] exactly when no candidate matches. *)
Theorem tidal_search_first_match lib spotify_track tidal_session query tracks :
  search_query lib spotify_track = Ok query ->
  search tidal_session query = Ok tracks ->
  (forall track,
     tidal_search lib spotify_track tidal_session = Ok (Some track)
     <-> exists before after,
           tracks = before ++ track :: after
           /\ match_ lib track spotify_track = true
           /\ Forall (fun other => match_ lib other spotify_track = false) before)
  /\ (tidal_search lib spotify_track tidal_session = Ok None
      <-> Forall (fun other => match_ lib other spotify_track = false) tracks).
Proof.
  intros Hq Hs. unfold tidal_search. rewrite Hq. simpl. rewrite Hs. simpl. split.
  - intros track. split.
    + intros [= H]. exact (proj1 (find_first _ _ _) H).
    + intros H. f_equal. exact (proj2 (find_first _ _ _) H).
  - split.
    + intros [= H]. exact (proj1 (find_none_iff _ _) H).
    + intros H. f_equal. exact (proj2 (find_none_iff _ _) H).
Qed.

Lemma tidal_search_first_match_witness :
  search_query (constant_scores 100 100 0) spotify_a = Ok (str "beyonce yes")
  /\ search two_track_catalogue (str "beyonce yes") = Ok [tidal_of_duration 300; tidal_a]
  /\ tidal_search (constant_scores 100 100 0) spotify_a two_track_catalogue
     = Ok (Some tidal_a).
Proof.
  assert (H1 : search_query (constant_scores 100 100 0) spotify_a = Ok (str "beyonce yes"))
    by (by vm_compute).
  assert (H2 : search two_track_catalogue (str "beyonce yes")
               = Ok [tidal_of_duration 300; tidal_a]) by reflexivity.
  refine (conj H1 (conj H2
            (proj2 (proj1 (tidal_search_first_match _ _ _ _ _ H1 H2) tidal_a)
               (ex_intro _ [tidal_of_duration 300] (ex_intro _ [] (conj eq_refl _)))))).
  split; [by vm_compute|repeat constructor].
Defined.

(** X6.  A source track without artist whose normalized title has at most
    25 characters cannot be resolved: [spotify_track['artists'][0]] raises
    [IndexError] before any search is made, whatever the destination
    service; and a playlist that holds such a track is not synced, the
    exception ending [sync_playlist] before the write. *)
Theorem tidal_search_no_artist lib spotify_track :
  Spotify.artists spotify_track = [] ->
  (length (simplify (table lib) (Spotify.name spotify_track)) <= 25)%nat ->
  (forall tidal_session, tidal_search lib spotify_track tidal_session = Raise IndexError)
  /\ (forall pages tidal_session tidal_playlist completion,
        completion ≡ₚ seq 0 (length (get_tracks_from_spotify_playlist pages)) ->
        spotify_track ∈ get_tracks_from_spotify_playlist pages ->
        exists e, sync_playlist lib pages tidal_session tidal_playlist completion
                  = Some (Raise e, tidal_session)).
Proof.
  intros Hartists Hlen.
  assert (forall tidal_session, tidal_search lib spotify_track tidal_session = Raise IndexError)
    as Hraise.
  { intros tidal_session. unfold tidal_search, search_query.
    apply Nat.leb_le in Hlen. by rewrite Hlen, Hartists. }
  split; [done|]. intros pages tidal_session tidal_playlist completion Hperm Hin.
  apply list_elem_of_lookup in Hin as [i Hi].
  destruct (pool_map_Raise (fun t => tidal_search lib t tidal_session)
              _ _ _ _ _ Hperm Hi (Hraise tidal_session)) as [e He].
  exists e. apply call_async_Raise in He. unfold sync_playlist. by rewrite He.
Qed.

Lemma tidal_search_no_artist_witness :
  Spotify.artists spotify_anonymous = []
  /\ (length (simplify (table (constant_scores 100 100 100))
                 (Spotify.name spotify_anonymous)) <= 25)%nat
  /\ tidal_search (constant_scores 100 100 100) spotify_anonymous two_track_catalogue
     = Raise IndexError.
Proof.
  assert (H1 : Spotify.artists spotify_anonymous = []) by reflexivity.
  assert (H2 : (length (simplify (table (constant_scores 100 100 100))
                          (Spotify.name spotify_anonymous)) <= 25)%nat) by (vm_compute; lia).
  exact (conj H1 (conj H2 (proj1 (tidal_search_no_artist _ _ H1 H2) two_track_catalogue))).
Defined.

(** ** The worker pool and the order of completion *)

(** Either every task returns or one of them raises. *)
Lemma results_all_or_some {A B} (f : A -> result B) xs :
  (exists ys, Forall2 (fun x y => f x = Ok y) xs ys)
  \/ (exists i x e, xs !! i = Some x /\ f x = Raise e).
Proof.
  induction xs as [|x xs [[ys IH]|(i & x' & e & Hi & He)]].
  - left. by exists [].
  - destruct (f x) as [y|e] eqn:E.
    + left. exists (y :: ys). by constructor.
    + right. by exists 0%nat, x, e.
  - right. by exists (S i), x', e.
Qed.

(** An exception that has been kept stays, whatever completes later. *)
Lemma deliver_keeps {A B} (f : A -> result B) xs later st e :
  st.2 = Some e -> (fold_left (deliver f xs) later st).2 = Some e.
Proof.
  revert st. induction later as [|i later IH]; intros st Hst; [done|].
  simpl. apply IH. unfold deliver.
  destruct (xs !! i) as [x|]; [|done]. destruct (f x); simpl; [done|by rewrite Hst].
Qed.

(** The exception kept is that of the first task to complete with one. *)
Lemma pool_first_failure {A B} (f : A -> result B) xs earlier i later x e :
  (forall j x', j ∈ earlier -> xs !! j = Some x' -> exists y, f x' = Ok y) ->
  xs !! i = Some x -> f x = Raise e ->
  (pool_state f xs (earlier ++ i :: later)).2 = Some e.
Proof.
  intros Hearlier Hx He. unfold pool_state. rewrite fold_left_app. simpl.
  apply deliver_keeps. fold (pool_state f xs earlier).
  assert ((pool_state f xs earlier).2 = None) as Hnone.
  { apply pool_failure_None. intros j x' e' Hj Hx'.
    destruct (Hearlier j x' Hj Hx') as [y ->]. done. }
  unfold deliver. by rewrite Hx, He, Hnone.
Qed.

(** X7.  The result of [call_async] does not depend on the order in which
    the resolution tasks complete, except for the exception it reports: for
    any two orders of completion, either it returns the same outcome
    sequence for both, or it raises for both. *)
Theorem call_async_any_order lib spotify_tracks tidal_session completion1 completion2 :
  completion1 ≡ₚ seq 0 (length spotify_tracks) ->
  completion2 ≡ₚ seq 0 (length spotify_tracks) ->
  (exists outcomes,
     call_async lib spotify_tracks tidal_session completion1 = Some (Ok outcomes)
     /\ call_async lib spotify_tracks tidal_session completion2 = Some (Ok outcomes))
  \/ (exists e1 e2,
        call_async lib spotify_tracks tidal_session completion1 = Some (Raise e1)
        /\ call_async lib spotify_tracks tidal_session completion2 = Some (Raise e2)).
Proof.
  intros H1 H2.
  destruct (results_all_or_some (fun t => tidal_search lib t tidal_session) spotify_tracks)
    as [[outcomes Hall]|(i & t & e & Hi & He)].
  - left. exists outcomes. split; apply call_async_pool; by apply pool_map_Ok.
  - right.
    destruct (pool_map_Raise (fun t => tidal_search lib t tidal_session) _ _ _ _ _ H1 Hi He)
      as [e1 He1].
    destruct (pool_map_Raise (fun t => tidal_search lib t tidal_session) _ _ _ _ _ H2 Hi He)
      as [e2 He2].
    exists e1, e2. split; by apply call_async_Raise.
Qed.

Lemma call_async_any_order_witness :
  [0; 1]%nat ≡ₚ seq 0 (length [spotify_a; spotify_long])
  /\ [1; 0]%nat ≡ₚ seq 0 (length [spotify_a; spotify_long])
  /\ ((exists outcomes,
         call_async (constant_scores 100 100 0) [spotify_a; spotify_long]
           (one_track_catalogue []) [0; 1]%nat = Some (Ok outcomes)
         /\ call_async (constant_scores 100 100 0) [spotify_a; spotify_long]
              (one_track_catalogue []) [1; 0]%nat = Some (Ok outcomes))
      \/ (exists e1 e2,
            call_async (constant_scores 100 100 0) [spotify_a; spotify_long]
              (one_track_catalogue []) [0; 1]%nat = Some (Raise e1)
            /\ call_async (constant_scores 100 100 0) [spotify_a; spotify_long]
                 (one_track_catalogue []) [1; 0]%nat = Some (Raise e2))).
Proof.
  assert (H1 : [0; 1]%nat ≡ₚ seq 0 (length [spotify_a; spotify_long])) by reflexivity.
  assert (H2 : [1; 0]%nat ≡ₚ seq 0 (length [spotify_a; spotify_long]))
    by apply Permutation_swap.
  exact (conj H1 (conj H2 (call_async_any_order _ _ _ _ _ H1 H2))).
Defined.

(** X8.  When searches raise, [call_async] raises the exception of the
    failing task that completes first: the tasks that complete before it
    return, the results of those that complete after it do not matter. *)
Theorem call_async_first_failure lib spotify_tracks tidal_session earlier i later t e :
  earlier ++ i :: later ≡ₚ seq 0 (length spotify_tracks) ->
  (forall j t', j ∈ earlier -> spotify_tracks !! j = Some t' ->
     exists o, tidal_search lib t' tidal_session = Ok o) ->
  spotify_tracks !! i = Some t ->
  tidal_search lib t tidal_session = Raise e ->
  call_async lib spotify_tracks tidal_session (earlier ++ i :: later) = Some (Raise e).
Proof.
  intros Hperm Hearlier Ht He. apply call_async_Raise. unfold pool_map.
  rewrite pool_map_covered by done.
  by rewrite (pool_first_failure (fun t => tidal_search lib t tidal_session)
                _ _ _ _ _ _ Hearlier Ht He).
Qed.

Lemma call_async_first_failure_witness :
  ([1] ++ 0 :: [2])%nat ≡ₚ seq 0 (length [spotify_a; spotify_b; spotify_anonymous])
  /\ [spotify_a; spotify_b; spotify_anonymous] !! 0%nat = Some spotify_a
  /\ tidal_search (constant_scores 100 100 100) spotify_a (failing_search [])
     = Raise (HTTPError 500)
  /\ call_async (constant_scores 100 100 100) [spotify_a; spotify_b; spotify_anonymous]
       (failing_search []) ([1] ++ 0 :: [2])%nat = Some (Raise (HTTPError 500)).
Proof.
  assert (H1 : ([1] ++ 0 :: [2])%nat
               ≡ₚ seq 0 (length [spotify_a; spotify_b; spotify_anonymous]))
    by apply Permutation_swap.
  assert (H2 : forall j t', j ∈ [1%nat] ->
                 [spotify_a; spotify_b; spotify_anonymous] !! j = Some t' ->
                 exists o, tidal_search (constant_scores 100 100 100) t' (failing_search [])
                           = Ok o).
  { intros j t' ->%list_elem_of_singleton [= <-]. eexists. by vm_compute. }
  assert (H3 : [spotify_a; spotify_b; spotify_anonymous] !! 0%nat = Some spotify_a)
    by reflexivity.
  assert (H4 : tidal_search (constant_scores 100 100 100) spotify_a (failing_search [])
               = Raise (HTTPError 500)) by (by vm_compute).
  exact (conj H1 (conj H3 (conj H4 (call_async_first_failure _ _ _ _ _ _ _ _ H1 H2 H3 H4)))).
Defined.

(** ** The source playlist *)

Lemma omap_id_filter {A} (page : list (option A)) :
  Some <$> omap id page = filter (fun entry => is_Some entry) page.
Proof.
  induction page as [|[a|] page IH]; [done| |].
  - rewrite filter_cons_True by done. by rewrite <- IH.
  - rewrite filter_cons_False by (by intros [? ?]). by rewrite <- IH.
Qed.

(** X9.  [get_tracks_from_spotify_playlist] returns the entries of the
    playlist that hold a track, in playlist order, the entries without
    track being left out; how the service cuts the playlist into pages does
    not show in the result. *)
Theorem get_tracks_paging pages :
  Some <$> get_tracks_from_spotify_playlist pages
  = filter (fun entry => is_Some entry) (concat pages)
  /\ forall pages',
       get_tracks_from_spotify_playlist (pages ++ pages')
       = get_tracks_from_spotify_playlist pages ++ get_tracks_from_spotify_playlist pages'.
Proof.
  unfold get_tracks_from_spotify_playlist. split.
  - induction pages as [|page pages IH]; [done|].
    rewrite bind_cons, fmap_app, IH, omap_id_filter. simpl. by rewrite filter_app.
  - intros pages'. apply bind_app.
Qed.

(** ** The report of [sync_playlist] *)

Lemma collect_not_found outcomes : (collect outcomes).2 = not_found_from 1 outcomes.
Proof.
  unfold collect.
  enough (forall k ids not_found,
            (fold_left (fun '(tidal_track_ids, not_found) '(index, tidal_track) =>
                          match tidal_track with
                          | Some t => (tidal_track_ids ++ [Tidal.id t], not_found)
                          | None => (tidal_track_ids, not_found ++ [S index])
                          end)
               (imap (fun i o => ((k + i)%nat, o)) outcomes) (ids, not_found)).2
            = not_found ++ not_found_from (S k) outcomes) as H by (by apply (H 0%nat [] [])).
  induction outcomes as [|o outcomes IH]; intros k ids not_found.
  - simpl. by rewrite app_nil_r.
  - rewrite imap_cons. cbn [fold_left].
    rewrite (imap_ext _ (fun i o => ((S k + i)%nat, o)))
      by (intros; simpl; f_equal; lia).
    destruct o as [t|]; cbn [not_found_from]; rewrite IH; [done|].
    rewrite <- app_assoc. simpl. do 3 f_equal. lia.
Qed.

Lemma not_found_from_elem first outcomes n :
  n ∈ not_found_from first outcomes
  <-> exists i, n = (first + i)%nat /\ outcomes !! i = Some None.
Proof.
  revert first. induction outcomes as [|[t|] outcomes IH]; intros first; simpl.
  - split; [by intros ?%elem_of_nil|by intros (? & _ & ?)].
  - rewrite IH. split.
    + intros (i & -> & ?). exists (S i). split; [lia|done].
    + intros ([|i] & -> & ?); [done|]. exists i. split; [lia|done].
  - rewrite elem_of_cons, IH. split.
    + intros [->|(i & -> & ?)]; [exists 0%nat|exists (S i)]; (split; [lia|done]).
    + intros ([|i] & -> & ?); [left; lia|right]. exists i. split; [lia|done].
Qed.

Lemma not_found_from_sorted first outcomes :
  StronglySorted lt (not_found_from first outcomes).
Proof.
  revert first. induction outcomes as [|[t|] outcomes IH]; intros first; simpl;
    [constructor|apply IH|].
  constructor; [apply IH|]. apply Forall_forall.
  intros n (i & -> & _)%not_found_from_elem. lia.
Qed.

Lemma not_found_from_length first outcomes :
  (length (sync_plan outcomes) + length (not_found_from first outcomes)
   = length outcomes)%nat.
Proof.
  revert first. unfold sync_plan.
  induction outcomes as [|[t|] outcomes IH]; intros first; simpl; [done| |].
  - f_equal. apply IH.
  - rewrite Nat.add_succ_r. f_equal. apply IH.
Qed.

(** X10.  The loop of [sync_playlist] over the outcome sequence reports a
    track as not found exactly when its resolution gave no candidate; the
    numbers reported count from 1 along the tracks fetched (entries without
    track not counted), in ascending order, and every track is either in
    the sync plan or reported.  When every resolution returns, the plan is
    not empty and the service accepts the write, [sync_playlist] ends
    normally with exactly these reports. *)
Theorem sync_playlist_reports lib pages tidal_session tidal_playlist completion playlist
    outcomes :
  ((forall n, n ∈ (collect outcomes).2 <-> exists i, n = S i /\ outcomes !! i = Some None)
   /\ StronglySorted lt (collect outcomes).2
   /\ (collect outcomes).1 = sync_plan outcomes
   /\ (length (sync_plan outcomes) + length (collect outcomes).2 = length outcomes)%nat)
  /\ (completion ≡ₚ seq 0 (length (get_tracks_from_spotify_playlist pages)) ->
      Forall2 (fun t o => tidal_search lib t tidal_session = Ok o)
        (get_tracks_from_spotify_playlist pages) outcomes ->
      playlists tidal_session !! tidal_playlist = Some playlist ->
      sync_plan outcomes <> [] ->
      forall after,
        add_tracks tidal_session (TidalPlaylist.tracks playlist) (sync_plan outcomes)
        = Ok after ->
        exists tidal_session',
          sync_playlist lib pages tidal_session tidal_playlist completion
          = Some (Ok (collect outcomes).2, tidal_session')).
Proof.
  split.
  - rewrite collect_not_found. split; [|split; [|split]].
    + intros n. apply not_found_from_elem.
    + apply not_found_from_sorted.
    + apply collect_plan.
    + apply not_found_from_length.
  - intros Hperm Hall Hold Hplan after Hafter.
    rewrite (sync_playlist_add lib pages tidal_session tidal_playlist completion playlist
               outcomes Hperm Hall Hold).
    rewrite playlist_add_request, Hafter by done. simpl. by eexists.
Qed.

Lemma sync_playlist_reports_witness :
  [1; 0]%nat ≡ₚ seq 0 (length (get_tracks_from_spotify_playlist
                                 [[Some spotify_a]; [None; Some spotify_long]]))
  /\ Forall2 (fun t o => tidal_search (constant_scores 100 100 0) t (one_track_catalogue [])
                         = Ok o)
       (get_tracks_from_spotify_playlist [[Some spotify_a]; [None; Some spotify_long]])
       [Some tidal_a; None]
  /\ playlists (one_track_catalogue []) !! 1 = Some (chill [])
  /\ sync_plan [Some tidal_a; None] <> []
  /\ add_tracks (one_track_catalogue []) (TidalPlaylist.tracks (chill []))
       (sync_plan [Some tidal_a; None]) = Ok [5]
  /\ exists tidal_session',
       sync_playlist (constant_scores 100 100 0) [[Some spotify_a]; [None; Some spotify_long]]
         (one_track_catalogue []) 1 [1; 0]%nat
       = Some (Ok (collect [Some tidal_a; None]).2, tidal_session').
Proof.
  assert (H1 : [1; 0]%nat ≡ₚ seq 0 (length (get_tracks_from_spotify_playlist
                                              [[Some spotify_a]; [None; Some spotify_long]])))
    by apply Permutation_swap.
  assert (H2 : Forall2 (fun t o => tidal_search (constant_scores 100 100 0) t
                                     (one_track_catalogue []) = Ok o)
                 (get_tracks_from_spotify_playlist [[Some spotify_a]; [None; Some spotify_long]])
                 [Some tidal_a; None])
    by (repeat constructor; by vm_compute).
  assert (H3 : playlists (one_track_catalogue []) !! 1 = Some (chill [])) by (by vm_compute).
  assert (H4 : sync_plan [Some tidal_a; None] <> []) by discriminate.
  assert (H5 : add_tracks (one_track_catalogue []) (TidalPlaylist.tracks (chill []))
                 (sync_plan [Some tidal_a; None]) = Ok [5]) by (by vm_compute).
  exact (conj H1 (conj H2 (conj H3 (conj H4 (conj H5
           (proj2 (sync_playlist_reports (constant_scores 100 100 0) _ _ 1 _ _ _)
              H1 H2 H3 H4 _ H5)))))).
Defined.

(** ** The playlist reconciler: what a run leaves alone *)

(** [sync_playlist] writes to the playlist it is given and to no other. *)
Lemma sync_playlist_others lib pages tidal_session tidal_playlist completion outcome
    tidal_session' q :
  sync_playlist lib pages tidal_session tidal_playlist completion
  = Some (outcome, tidal_session') ->
  q <> tidal_playlist ->
  playlists tidal_session' !! q = playlists tidal_session !! q.
Proof.
  unfold sync_playlist.
  destruct (call_async lib _ tidal_session completion) as [[tidal_tracks|e]|]; simpl;
    [| |done].
  - destruct (collect tidal_tracks) as [ids not_found]. unfold set_tidal_playlist.
    destruct (playlists tidal_session !! tidal_playlist) as [playlist|];
      [|by intros [= <- <-]].
    destruct (playlist_add tidal_session playlist ids); simpl; intros [= <- <-] Hq; [|done].
    simpl. by rewrite lookup_insert_ne.
  - by intros [= <- <-].
Qed.

(** A turn of the loop keeps every playlist but the one it picks for
    deletion. *)
Lemma sync_list_step_others lib spotify_session tidal_playlists tidal_session spotify_id
    completion outcome tidal_session' q playlist :
  sync_list_step lib spotify_session tidal_playlists tidal_session spotify_id completion
  = Some (outcome, tidal_session') ->
  playlists tidal_session !! q = Some playlist ->
  (forall spotify_playlist tidal_playlist,
     spotify_session spotify_id = Ok spotify_playlist ->
     same_named spotify_playlist tidal_playlists <> Some (q, tidal_playlist)) ->
  playlists tidal_session' !! q = Some playlist.
Proof.
  unfold sync_list_step. intros Hstep Hq Hpick.
  destruct (spotify_session spotify_id) as [spotify_playlist|e] eqn:Hfetch.
  2: { by destruct e; injection Hstep as <- <-. }
  specialize (Hpick spotify_playlist).
  change (List.find _ tidal_playlists) with (same_named spotify_playlist tidal_playlists)
    in Hstep.
  assert (forall s1, playlists s1 !! q = Some playlist ->
            (let '(tidal_playlist, s2) :=
               create_playlist s1 (SpotifyPlaylist.name spotify_playlist)
                 (SpotifyPlaylist.description spotify_playlist) in
             sync_playlist lib (SpotifyPlaylist.pages spotify_playlist) s2 tidal_playlist
               completion) = Some (outcome, tidal_session') ->
            playlists tidal_session' !! q = Some playlist) as Hcreate.
  { intros s1 Hs1. unfold create_playlist. intros Hsync.
    assert (q <> fresh (dom (playlists s1))) as Hfresh.
    { intros ->. apply (is_fresh (dom (playlists s1))). by apply elem_of_dom. }
    apply sync_playlist_others with (q := q) in Hsync; [|done].
    rewrite Hsync. simpl. by rewrite lookup_insert_ne. }
  destruct (same_named spotify_playlist tidal_playlists) as [[p tidal_playlist]|] eqn:Hfind.
  - unfold delete_playlist in Hstep.
    destruct (playlists tidal_session !! p) eqn:Hp; [|by injection Hstep as <- <-].
    apply Hcreate in Hstep; [done|]. simpl. rewrite lookup_delete_ne; [done|].
    intros ->. by apply (Hpick tidal_playlist eq_refl).
  - by apply Hcreate in Hstep.
Qed.

Lemma sync_list_from_others lib spotify_session tidal_playlists q playlist completion
    sync_playlists :
  (forall spotify_id spotify_playlist tidal_playlist,
     spotify_id ∈ sync_playlists ->
     spotify_session spotify_id = Ok spotify_playlist ->
     same_named spotify_playlist tidal_playlists <> Some (q, tidal_playlist)) ->
  forall tidal_session index outcome tidal_session',
    sync_list_from lib spotify_session tidal_playlists tidal_session index sync_playlists
      completion = Some (outcome, tidal_session') ->
    playlists tidal_session !! q = Some playlist ->
    playlists tidal_session' !! q = Some playlist.
Proof.
  induction sync_playlists as [|spotify_id sync_playlists IH];
    intros Hpick tidal_session index outcome tidal_session'; simpl.
  - by intros [= <- <-].
  - destruct (sync_list_step lib spotify_session tidal_playlists tidal_session spotify_id
                (completion index)) as [[outcome1 s1]|] eqn:Hstep; simpl; [|done].
    intros Hrun Hq.
    assert (playlists s1 !! q = Some playlist) as Hs1.
    { eapply sync_list_step_others; [exact Hstep|done|].
      intros sp tp. apply Hpick. by left. }
    destruct outcome1 as [not_found|e]; [|by injection Hrun as <- <-].
    destruct (sync_list_from lib spotify_session tidal_playlists s1 (S index)
                sync_playlists completion) as [[outcome2 s2]|] eqn:Hrest; simpl in Hrun;
      [|done].
    injection Hrun as <- <-. eapply IH; [|exact Hrest|done].
    intros id sp tp Hid. apply Hpick. by right.
Qed.

(** X11.  A turn of the loop of [sync_list] removes at most one playlist of
    the account: however the turn ends, a playlist of the account is after
    it as it was before, same-named or not, unless it is the playlist the
    turn picks for deletion, the first same-named playlist of the list
    fetched before the loop. *)
Theorem sync_list_step_keeps_others lib spotify_session tidal_playlists tidal_session
    spotify_id completion outcome tidal_session' q playlist :
  sync_list_step lib spotify_session tidal_playlists tidal_session spotify_id completion
  = Some (outcome, tidal_session') ->
  playlists tidal_session !! q = Some playlist ->
  playlists tidal_session' !! q = Some playlist
  \/ exists spotify_playlist listed,
       spotify_session spotify_id = Ok spotify_playlist
       /\ same_named spotify_playlist tidal_playlists = Some (q, listed).
Proof.
  intros Hstep Hq.
  destruct (spotify_session spotify_id) as [spotify_playlist|e] eqn:Hfetch.
  - destruct (same_named spotify_playlist tidal_playlists) as [[p listed]|] eqn:Hfind.
    + destruct (decide (p = q)) as [->|Hne]; [right; by eauto|left].
      eapply sync_list_step_others; [exact Hstep|done|].
      intros sp tp Hsp. rewrite Hfetch in Hsp. injection Hsp as <-. congruence.
    + left. eapply sync_list_step_others; [exact Hstep|done|].
      intros sp tp Hsp. rewrite Hfetch in Hsp. injection Hsp as <-. congruence.
  - left. eapply sync_list_step_others; [exact Hstep|done|].
    intros sp tp Hsp. congruence.
Qed.

Lemma sync_list_step_keeps_others_witness :
  playlists two_track_catalogue !! 2 = Some focus
  /\ exists outcome tidal_session',
       sync_list_step (constant_scores 100 100 100) one_playlist_source
         (map_to_list (playlists two_track_catalogue)) two_track_catalogue (str "p1")
         [0%nat] = Some (outcome, tidal_session')
       /\ (playlists tidal_session' !! 2 = Some focus
           \/ exists spotify_playlist listed,
                one_playlist_source (str "p1") = Ok spotify_playlist
                /\ same_named spotify_playlist (map_to_list (playlists two_track_catalogue))
                   = Some (2, listed)).
Proof.
  assert (H2 : playlists two_track_catalogue !! 2 = Some focus) by (by vm_compute).
  destruct (sync_list_step (constant_scores 100 100 100) one_playlist_source
              (map_to_list (playlists two_track_catalogue)) two_track_catalogue (str "p1")
              [0%nat]) as [[outcome tidal_session']|] eqn:H1.
  - exact (conj H2 (ex_intro _ outcome (ex_intro _ tidal_session'
             (conj eq_refl (sync_list_step_keeps_others _ _ _ _ _ _ _ _ _ _ H1 H2))))).
  - vm_compute in H1. discriminate.
Defined.

(** X12.  A run of [sync_list] leaves alone every playlist of the account
    whose name is not the name of a source playlist of the configuration:
    however the run ends, such a playlist is there with the same name,
    description and tracks. *)
Theorem sync_list_keeps_other_names lib spotify_session tidal_session sync_playlists
    completion outcome tidal_session' q playlist :
  sync_list lib spotify_session tidal_session sync_playlists completion
  = Some (outcome, tidal_session') ->
  playlists tidal_session !! q = Some playlist ->
  (forall spotify_id spotify_playlist,
     spotify_id ∈ sync_playlists ->
     spotify_session spotify_id = Ok spotify_playlist ->
     SpotifyPlaylist.name spotify_playlist <> TidalPlaylist.name playlist) ->
  playlists tidal_session' !! q = Some playlist.
Proof.
  unfold sync_list. intros Hrun Hq Hnames.
  eapply sync_list_from_others; [|exact Hrun|done].
  intros spotify_id sp tp Hid Hfetch Hfind. unfold same_named in Hfind.
  apply find_some in Hfind as [Hin Hname].
  apply list_elem_of_In, elem_of_map_to_list in Hin.
  apply bool_decide_eq_true in Hname. rewrite Hq in Hin. injection Hin as <-.
  by apply (Hnames spotify_id sp).
Qed.

Lemma sync_list_keeps_other_names_witness :
  playlists two_track_catalogue !! 2 = Some focus
  /\ exists outcome tidal_session',
       sync_list (constant_scores 100 100 100) one_playlist_source two_track_catalogue
         [str "p1"; str "p2"] (fun _ => [0%nat]) = Some (outcome, tidal_session')
       /\ playlists tidal_session' !! 2 = Some focus.
Proof.
  assert (H2 : playlists two_track_catalogue !! 2 = Some focus) by (by vm_compute).
  assert (H3 : forall spotify_id spotify_playlist,
                 spotify_id ∈ [str "p1"; str "p2"] ->
                 one_playlist_source spotify_id = Ok spotify_playlist ->
                 SpotifyPlaylist.name spotify_playlist <> TidalPlaylist.name focus).
  { intros id sp Hid H.
    apply elem_of_cons in Hid as [->|Hid%list_elem_of_singleton]; [|subst id];
      vm_compute in H; [|discriminate]. injection H as <-. vm_compute. discriminate. }
  destruct (sync_list (constant_scores 100 100 100) one_playlist_source two_track_catalogue
              [str "p1"; str "p2"] (fun _ => [0%nat])) as [[outcome tidal_session']|] eqn:H1.
  - exact (conj H2 (ex_intro _ outcome (ex_intro _ tidal_session'
             (conj eq_refl (sync_list_keeps_other_names _ _ _ _ _ _ _ _ _ H1 H2 H3))))).
  - vm_compute in H1. discriminate.
Defined.

(** ** The playlist reconciler: errors *)

(** Unreadable source playlists at the head of the list are passed over. *)
Lemma sync_list_from_unreadable lib spotify_session tidal_playlists tidal_session completion
    unreadable :
  (forall spotify_id,
     spotify_id ∈ unreadable -> spotify_session spotify_id = Raise SpotifyException) ->
  forall index rest,
    sync_list_from lib spotify_session tidal_playlists tidal_session index
      (unreadable ++ rest) completion
    = '(outcome, tidal_session') ←
        sync_list_from lib spotify_session tidal_playlists tidal_session
          (index + length unreadable) rest completion;
      Some (match outcome with
            | Raise e => Raise e
            | Ok reports => Ok (replicate (length unreadable) [] ++ reports)
            end, tidal_session').
Proof.
  induction unreadable as [|spotify_id unreadable IH]; intros Hraise index rest.
  - simpl. rewrite Nat.add_0_r.
    by destruct (sync_list_from _ _ _ _ _ rest _) as [[[reports|e] s']|].
  - cbn [app sync_list_from]. unfold sync_list_step at 1.
    rewrite (Hraise spotify_id) by (by left). simpl.
    rewrite IH by (intros id Hid; apply Hraise; by right).
    replace (S index + length unreadable)%nat with (index + S (length unreadable))%nat by lia.
    by destruct (sync_list_from _ _ _ _ _ rest _) as [[[reports|e] s']|].
Qed.

(** X13.  [sync_list] catches [SpotifyException] and nothing else around the
    fetch of a source playlist.  When every playlist of the configuration is
    unreadable, the run ends normally, with nothing reported and the account
    as it was; when, after unreadable playlists, a fetch raises another
    exception, the run ends there with that exception, the account as it
    was, and the playlists after it are not looked at. *)
Theorem sync_list_source_errors lib spotify_session tidal_session unreadable completion :
  (forall spotify_id,
     spotify_id ∈ unreadable -> spotify_session spotify_id = Raise SpotifyException) ->
  sync_list lib spotify_session tidal_session unreadable completion
  = Some (Ok (replicate (length unreadable) []), tidal_session)
  /\ forall spotify_id e rest,
       spotify_session spotify_id = Raise e -> e <> SpotifyException ->
       sync_list lib spotify_session tidal_session (unreadable ++ spotify_id :: rest)
         completion
       = Some (Raise e, tidal_session).
Proof.
  intros Hraise. unfold sync_list. split.
  - rewrite <- (app_nil_r unreadable) at 1.
    rewrite (sync_list_from_unreadable _ _ _ _ _ _ Hraise). simpl.
    by rewrite app_nil_r.
  - intros spotify_id e rest He Hne.
    rewrite (sync_list_from_unreadable _ _ _ _ _ _ Hraise).
    cbn [sync_list_from]. unfold sync_list_step. rewrite He.
    by destruct e.
Qed.

Lemma sync_list_source_errors_witness :
  (forall spotify_id,
     spotify_id ∈ [str "p2"; str "p3"] ->
     one_playlist_source spotify_id = Raise SpotifyException)
  /\ sync_list (constant_scores 100 100 100) one_playlist_source two_track_catalogue
       [str "p2"; str "p3"] (fun _ => [])
     = Some (Ok [[]; []], two_track_catalogue).
Proof.
  assert (H : forall spotify_id,
                spotify_id ∈ [str "p2"; str "p3"] ->
                one_playlist_source spotify_id = Raise SpotifyException).
  { intros id [->|Hid%list_elem_of_singleton]%elem_of_cons; [|subst id]; by vm_compute. }
  exact (conj H (proj1 (sync_list_source_errors (constant_scores 100 100 100) _
                          two_track_catalogue _ (fun _ => []) H))).
Defined.

(** X14.  The loop of [sync_list] deletes the same-named playlist and creates
    the new one before the tracks are resolved, and nothing undoes that: when
    a search then raises, the turn ends with an exception, the playlist
    deleted stays deleted, and the account holds the new playlist, with the
    name and the description of the source playlist and no track. *)
Theorem sync_list_step_failure lib spotify_session tidal_playlists tidal_session spotify_id
    completion spotify_playlist p listed old i t e :
  spotify_session spotify_id = Ok spotify_playlist ->
  same_named spotify_playlist tidal_playlists = Some (p, listed) ->
  playlists tidal_session !! p = Some old ->
  completion ≡ₚ seq 0 (length (get_tracks_from_spotify_playlist
                                 (SpotifyPlaylist.pages spotify_playlist))) ->
  get_tracks_from_spotify_playlist (SpotifyPlaylist.pages spotify_playlist) !! i = Some t ->
  tidal_search lib t tidal_session = Raise e ->
  exists e' new_id tidal_session',
    sync_list_step lib spotify_session tidal_playlists tidal_session spotify_id completion
    = Some (Raise e', tidal_session')
    /\ (new_id ∉ dom (delete p (playlists tidal_session)))
    /\ playlists tidal_session'
       = <[new_id := {| TidalPlaylist.name := SpotifyPlaylist.name spotify_playlist;
                        TidalPlaylist.description :=
                          SpotifyPlaylist.description spotify_playlist;
                        TidalPlaylist.tracks := [] |}]>
           (delete p (playlists tidal_session)).
Proof.
  intros Hfetch Hfind Hold Hperm Ht He. unfold sync_list_step. rewrite Hfetch.
  change (List.find _ tidal_playlists) with (same_named spotify_playlist tidal_playlists).
  rewrite Hfind. unfold delete_playlist. rewrite Hold. unfold create_playlist.
  set (s1 := {| search := search tidal_session;
                add_tracks := add_tracks tidal_session;
                playlists := delete p (playlists tidal_session) |}).
  set (new_id := fresh (dom (playlists s1))).
  set (s2 := {| search := search s1; add_tracks := add_tracks s1; playlists := _ |}).
  assert (tidal_search lib t s2 = Raise e) as He2.
  { rewrite <- He. by apply tidal_search_same_search. }
  destruct (pool_map_Raise (fun t => tidal_search lib t s2) _ _ _ _ _ Hperm Ht He2)
    as [e' He'].
  apply call_async_Raise in He'. exists e', new_id, s2. unfold sync_playlist.
  rewrite He'. split; [done|]. split; [|done]. apply is_fresh.
Qed.

Lemma sync_list_step_failure_witness :
  one_playlist_source (str "p1") = Ok evening
  /\ same_named evening (map_to_list (playlists (failing_search [7]))) = Some (1, chill [7])
  /\ playlists (failing_search [7]) !! 1 = Some (chill [7])
  /\ exists e' tidal_session',
       sync_list_step (constant_scores 100 100 100) one_playlist_source
         (map_to_list (playlists (failing_search [7]))) (failing_search [7]) (str "p1")
         [0%nat] = Some (Raise e', tidal_session')
       /\ playlist_tracks tidal_session' 1 <> Some [7].
Proof.
  assert (H1 : one_playlist_source (str "p1") = Ok evening) by (by vm_compute).
  assert (H2 : same_named evening (map_to_list (playlists (failing_search [7])))
               = Some (1, chill [7])) by (by vm_compute).
  assert (H3 : playlists (failing_search [7]) !! 1 = Some (chill [7])) by (by vm_compute).
  assert (H4 : [0%nat] ≡ₚ seq 0 (length (get_tracks_from_spotify_playlist
                                           (SpotifyPlaylist.pages evening))))
    by reflexivity.
  assert (H5 : get_tracks_from_spotify_playlist (SpotifyPlaylist.pages evening) !! 0%nat
               = Some spotify_a) by reflexivity.
  assert (H6 : tidal_search (constant_scores 100 100 100) spotify_a (failing_search [7])
               = Raise (HTTPError 500)) by (by vm_compute).
  destruct (sync_list_step_failure (constant_scores 100 100 100) _ _ _ _ _ _ _ _ _ _ _ _
              H1 H2 H3 H4 H5 H6) as (e' & new_id & tidal_session' & Hstep & Hnew & Hs').
  refine (conj H1 (conj H2 (conj H3
            (ex_intro _ e' (ex_intro _ tidal_session' (conj Hstep _)))))).
  unfold playlist_tracks. rewrite Hs'. destruct (decide (new_id = 1)) as [->|Hne].
  - rewrite lookup_insert_eq. simpl. discriminate.
  - rewrite lookup_insert_ne, lookup_delete_eq by done. simpl. discriminate.
Defined.

(** ** The playlist reconciler: a successful turn *)

Lemma sync_list_step_plan_witness :
  one_playlist_source (str "p1") = Ok evening
  /\ [0%nat] ≡ₚ seq 0 (length (get_tracks_from_spotify_playlist
                                  (SpotifyPlaylist.pages evening)))
  /\ Forall2 (fun t o => tidal_search (constant_scores 100 100 0) t two_track_catalogue
                         = Ok o)
       (get_tracks_from_spotify_playlist (SpotifyPlaylist.pages evening)) [Some tidal_a]
  /\ sync_plan [Some tidal_a] <> []
  /\ add_tracks two_track_catalogue [] (sync_plan [Some tidal_a]) = Ok [5]
  /\ exists not_found tidal_playlist tidal_session',
       sync_list_step (constant_scores 100 100 0) one_playlist_source
         (map_to_list (playlists two_track_catalogue)) two_track_catalogue (str "p1")
         [0%nat] = Some (Ok not_found, tidal_session')
       /\ playlists tidal_session' !! tidal_playlist
          = Some {| TidalPlaylist.name := str "Chill";
                    TidalPlaylist.description := str "evening";
                    TidalPlaylist.tracks := [5] |}.
Proof.
  assert (H1 : one_playlist_source (str "p1") = Ok evening) by (by vm_compute).
  assert (H2 : forall playlist_id tidal_playlist,
                 List.find (fun '(_, tidal_playlist) =>
                              bool_decide (TidalPlaylist.name tidal_playlist
                                           = SpotifyPlaylist.name evening))
                   (map_to_list (playlists two_track_catalogue))
                 = Some (playlist_id, tidal_playlist) ->
                 is_Some (playlists two_track_catalogue !! playlist_id)).
  { intros playlist_id tidal_playlist H. vm_compute in H. injection H as <- _.
    exists (chill [7]). by vm_compute. }
  assert (H3 : [0%nat] ≡ₚ seq 0 (length (get_tracks_from_spotify_playlist
                                           (SpotifyPlaylist.pages evening))))
    by reflexivity.
  assert (H4 : Forall2 (fun t o => tidal_search (constant_scores 100 100 0) t
                                     two_track_catalogue = Ok o)
                 (get_tracks_from_spotify_playlist (SpotifyPlaylist.pages evening))
                 [Some tidal_a])
    by (repeat constructor; by vm_compute).
  assert (H5 : sync_plan [Some tidal_a] <> []) by discriminate.
  assert (H6 : add_tracks two_track_catalogue [] (sync_plan [Some tidal_a]) = Ok [5])
    by (by vm_compute).
  destruct (sync_list_step_plan (constant_scores 100 100 0) _ _ _ _ _ _ _ H1 H2 H3 H4)
    as (tidal_playlist & created & _ & _ & Hadded).
  destruct (Hadded [5] H5 H6) as (not_found & tidal_session' & Hstep & Hnew).
  exact (conj H1 (conj H3 (conj H4 (conj H5 (conj H6
           (ex_intro _ not_found (ex_intro _ tidal_playlist (ex_intro _ tidal_session'
              (conj Hstep Hnew))))))))).
Defined.

(** ** The featuring-clause pattern: closed clauses *)

Lemma head_app_Some {A} (l1 l2 : list A) x : head l1 = Some x -> head (l1 ++ l2) = Some x.
Proof. by destruct l1. Qed.

(** [.*\)] finds nothing in a text without closing parenthesis. *)
Lemma star_dot_no_paren post :
  chr ")" ∉ post -> star_atom Dot post ≫= run (One (Lit (chr ")"))) = [].
Proof.
  induction post as [|x post IH]; intros Hparen; [done|].
  apply not_elem_of_cons in Hparen as [Hx Hpost].
  assert (run (One (Lit (chr ")"))) (x :: post) = []) as Hrun.
  { cbn [run atom_matches]. by destruct (N.eqb_spec x (chr ")")). }
  cbn [star_atom]. destruct (atom_matches Dot x).
  - by rewrite bind_app, IH, bind_singleton, Hrun.
  - by rewrite bind_singleton.
Qed.

(** [.*\)] is greedy: of the closing parentheses of a line it takes the
    last. *)
Lemma star_dot_last_paren mid post :
  LF ∉ mid -> chr ")" ∉ post ->
  head (star_atom Dot (mid ++ chr ")" :: post) ≫= run (One (Lit (chr ")")))) = Some post.
Proof.
  intros Hlf Hparen. induction mid as [|x mid IH].
  - cbn [app star_atom]. replace (atom_matches Dot (chr ")")) with true by reflexivity.
    rewrite bind_app, star_dot_no_paren, bind_singleton by done.
    cbn [run atom_matches]. by rewrite N.eqb_refl.
  - apply not_elem_of_cons in Hlf as [Hx Hmid]. cbn [app star_atom atom_matches].
    destruct (N.eqb_spec x LF); [done|]. cbn [negb]. rewrite bind_app.
    by apply head_app_Some, IH.
Qed.

Lemma run_cat_bind r1 r2 s : run (Cat r1 r2) s = run r1 s ≫= run r2.
Proof. done. Qed.

Lemma run_dot c rest : c <> LF -> run (One Dot) (c :: rest) = [rest].
Proof. intros Hc. cbn [run atom_matches]. by destruct (N.eqb_spec c LF). Qed.

(** At one of the markers [ft.], [feat.], [prod.], the marker group of the
    closed alternative matches in one way. *)
Lemma run_marker_with m c rest :
  m ∈ [str "ft"; str "feat"; str "prod"] -> c <> LF ->
  run re_marker_with (m ++ c :: rest) = [rest].
Proof.
  intros Hm Hc. unfold re_marker_with. rewrite !run_alt.
  assert (forall w, run (Cat (lit w) (One Dot)) (str w ++ c :: rest) = [rest]) as Hhit.
  { intros w. rewrite run_cat_bind. unfold lit.
    by rewrite run_lit_of, bind_singleton, run_dot. }
  repeat (apply elem_of_cons in Hm as [->|Hm]); [| | |by apply elem_of_nil in Hm];
    rewrite Hhit; by vm_compute.
Qed.

Lemma run_paren x s :
  run (One (Class false [(chr "(", chr "(")])) (x :: s) = if x =? chr "(" then [s] else [].
Proof.
  cbn [run atom_matches existsb xorb]. rewrite orb_false_r.
  destruct (N.eqb_spec x (chr "(")) as [->|Hne]; [done|].
  replace ((chr "(" <=? x) && (x <=? chr "(")) with false; [done|].
  symmetry. apply andb_false_iff.
  destruct (N.leb_spec (chr "(") x); [right|by left]. apply N.leb_gt. lia.
Qed.

(** A closed clause that starts at a marker, with or without an opening
    parenthesis in front, runs to the last closing parenthesis. *)
Lemma head_run_feat_closed opt m c mid post :
  opt ∈ [[]; [chr "("]] -> m ∈ [str "ft"; str "feat"; str "prod"] -> c <> LF ->
  LF ∉ mid -> chr ")" ∉ post ->
  head (run re_feat (opt ++ m ++ c :: mid ++ chr ")" :: post)) = Some post.
Proof.
  intros Hopt Hm Hc Hlf Hparen.
  assert (head (run (re_marker_with <.> Star Dot <.> One (Lit (chr ")")))
                  (m ++ c :: mid ++ chr ")" :: post)) = Some post) as Hclause.
  { rewrite !run_cat_bind, run_marker_with, bind_singleton by done.
    rewrite run_cat_bind. by apply star_dot_last_paren. }
  unfold re_feat. rewrite run_alt. unfold re_feat_closed.
  rewrite run_cat_bind. change (run (Opt ?r) ?s) with (run r s ++ [s]).
  apply elem_of_cons in Hopt as [->|[->|[]%elem_of_nil]%elem_of_cons].
  - cbn [app].
    assert (run (One (Class false [(chr "(", chr "(")])) (m ++ c :: mid ++ chr ")" :: post)
            = []) as ->.
    { repeat (apply elem_of_cons in Hm as [->|Hm]); [| | |by apply elem_of_nil in Hm];
        by vm_compute. }
    cbn [app]. rewrite bind_singleton. by apply head_app_Some.
  - cbn [app]. rewrite run_paren, N.eqb_refl. cbn [app]. rewrite bind_cons.
    by do 2 apply head_app_Some.
Qed.

(** A match of the featuring-clause pattern starts with an opening
    parenthesis, an [f] or a [p]. *)
Lemma run_feat_first x s rest :
  rest ∈ run re_feat (x :: s) -> x ∈ [chr "("; chr "f"; chr "p"].
Proof.
  assert (forall u, u ∈ run (One (Class false [(chr "(", chr "(")])) (x :: s) ->
            x = chr "(") as Hparen.
  { intros u. rewrite run_paren. destruct (N.eqb_spec x (chr "(")); [done|].
    by intros ?%elem_of_nil. }
  assert (forall w u r, u ∈ run (Cat (lit w) r) (x :: s) -> head (str w ++ [x]) = Some x)
    as Hlit.
  { intros w u r (v & Hv%run_lit_of_inv & _)%run_cat.
    destruct (str w); [done|]. by injection Hv as <-. }
  unfold re_feat. rewrite run_alt. intros [Hclosed|Hopen]%elem_of_app.
  - unfold re_feat_closed in Hclosed.
    apply run_cat in Hclosed as (u & Hu & Hrest). cbn [run] in Hu.
    apply elem_of_app in Hu as [Hu|Hu%list_elem_of_singleton].
    { rewrite (Hparen _ Hu). by left. }
    subst u. apply run_cat in Hrest as (v & Hv & _). unfold re_marker_with in Hv.
    rewrite !run_alt in Hv.
    apply elem_of_app in Hv as [Hv|[Hv|[Hv|Hv]%elem_of_app]%elem_of_app].
    + apply Hlit in Hv. vm_compute in Hv. injection Hv as <-. right. by left.
    + apply Hlit in Hv. vm_compute in Hv. injection Hv as <-. right. by left.
    + apply Hlit in Hv. vm_compute in Hv. injection Hv as <-. do 2 right. by left.
    + apply run_cat in Hv as (v' & Hv' & _). rewrite (Hparen _ Hv'). by left.
  - unfold re_feat_open in Hopen. apply run_cat in Hopen as (u & Hu & _).
    unfold re_marker in Hu. rewrite !run_alt in Hu.
    apply elem_of_app in Hu as [Hu|[Hu|Hu]%elem_of_app].
    + apply Hlit in Hu. vm_compute in Hu. injection Hu as <-. right. by left.
    + apply Hlit in Hu. vm_compute in Hu. injection Hu as <-. right. by left.
    + apply Hlit in Hu. vm_compute in Hu. injection Hu as <-. do 2 right. by left.
Qed.

(** Scanning passes over a prefix in which no match starts. *)
Lemma scan_prefix find repl p tail :
  (forall p1 x p2, p = p1 ++ x :: p2 -> find (x :: p2 ++ tail) = None) ->
  scan find repl 0 (p ++ tail) = p ++ scan find repl 0 tail.
Proof.
  induction p as [|x p IH]; intros Hmiss; [done|].
  cbn [app]. rewrite scan_miss.
  - f_equal. apply IH. intros p1 y p2 ->. by apply (Hmiss (x :: p1)).
  - intros k. by rewrite (Hmiss [] x p eq_refl).
Qed.

(** X15.  A featuring clause with a closing parenthesis is removed through
    the last closing parenthesis of its line, not the first.  When no [(],
    [f] or [p] stands in front of the clause, the clause starts at one of
    the markers [ft.], [feat.], [prod.], with or without an opening
    parenthesis in front, no line feed stands between the marker and a
    closing parenthesis and none of the closing parentheses comes later:
    the text in front is kept, everything from the clause to that
    parenthesis is deleted, whatever parentheses lie between, and the
    pattern goes on with the rest. *)
Theorem re_sub_feat_closed_greedy p opt m c mid post :
  Forall (fun x => x ∉ [chr "("; chr "f"; chr "p"]) p ->
  opt ∈ [[]; [chr "("]] -> m ∈ [str "ft"; str "feat"; str "prod"] -> c <> LF ->
  LF ∉ mid -> chr ")" ∉ post ->
  re_sub re_feat [] (p ++ opt ++ m ++ c :: mid ++ chr ")" :: post)
  = p ++ re_sub re_feat [] post.
Proof.
  intros Hp Hopt Hm Hc Hlf Hparen. unfold re_sub. rewrite scan_prefix.
  2: { intros p1 x p2 ->. apply Forall_app in Hp as [_ [Hx _]%Forall_cons].
       destruct (match_len re_feat _) as [k|] eqn:E; [|done].
       apply match_len_Some in E as (rest & Hrest%head_Some_elem_of & _).
       by apply run_feat_first in Hrest. }
  f_equal. pose proof (head_run_feat_closed opt m c mid post Hopt Hm Hc Hlf Hparen) as Hhead.
  assert (exists y clause, opt ++ m ++ c :: mid ++ chr ")" :: post = (y :: clause) ++ post)
    as (y & clause & Htail).
  { destruct opt as [|y opt]; [destruct m as [|y m]|].
    - exists c, (mid ++ [chr ")"]). simpl. by rewrite <- app_assoc.
    - exists y, (m ++ c :: mid ++ [chr ")"]). simpl.
      rewrite <- ?app_assoc. simpl. by rewrite <- ?app_assoc.
    - exists y, (opt ++ m ++ c :: mid ++ [chr ")"]). simpl.
      rewrite <- ?app_assoc. simpl. by rewrite <- ?app_assoc. }
  rewrite Htail in *. cbn [app] in *.
  rewrite (scan_hit _ _ y (clause ++ post) (length clause)).
  - by rewrite drop_app_length.
  - unfold match_len. destruct (run re_feat (y :: clause ++ post)) as [|rest l]; [done|].
    injection Hhead as ->. f_equal. simpl. rewrite length_app. lia.
Qed.

Lemma re_sub_feat_closed_greedy_witness :
  Forall (fun x => x ∉ [chr "("; chr "f"; chr "p"]) (str "song ")
  /\ ([chr "("] ∈ [[]; [chr "("]]) /\ (str "feat" ∈ [str "ft"; str "feat"; str "prod"])
  /\ chr "." <> LF /\ (LF ∉ str " a) (live") /\ (chr ")" ∉ str " x")
  /\ re_sub re_feat [] (str "song (feat. a) (live) x") = str "song  x".
Proof.
  assert (H1 : Forall (fun x => x ∉ [chr "("; chr "f"; chr "p"]) (str "song "))
    by (decide_by_compute).
  assert (H2 : [chr "("] ∈ [[]; [chr "("]]) by (decide_by_compute).
  assert (H3 : str "feat" ∈ [str "ft"; str "feat"; str "prod"]) by (decide_by_compute).
  assert (H4 : chr "." <> LF) by discriminate.
  assert (H5 : LF ∉ str " a) (live") by (decide_by_compute).
  assert (H6 : chr ")" ∉ str " x") by (decide_by_compute).
  exact (conj H1 (conj H2 (conj H3 (conj H4 (conj H5 (conj H6
           (re_sub_feat_closed_greedy (str "song ") [chr "("] (str "feat") (chr ".")
              (str " a) (live") (str " x") H1 H2 H3 H4 H5 H6))))))).
Defined.

(** The marker [(with] of the closed alternative. *)
Lemma run_marker_with_paren rest :
  run re_marker_with (str "(with" ++ rest) = [rest].
Proof.
  unfold re_marker_with. rewrite !run_alt.
  replace (run (lit "ft" <.> One Dot) (str "(with" ++ rest)) with (@nil pystr)
    by (by vm_compute).
  replace (run (lit "feat" <.> One Dot) (str "(with" ++ rest)) with (@nil pystr)
    by (by vm_compute).
  replace (run (lit "prod" <.> One Dot) (str "(with" ++ rest)) with (@nil pystr)
    by (by vm_compute).
  cbn [app]. rewrite run_cat_bind.
  change (str "(with" ++ rest) with (chr "(" :: str "with" ++ rest).
  rewrite run_paren, N.eqb_refl, bind_singleton. unfold lit. apply run_lit_of.
Qed.

Lemma head_run_feat_with mid post :
  LF ∉ mid -> chr ")" ∉ post ->
  head (run re_feat (str "(with" ++ mid ++ chr ")" :: post)) = Some post.
Proof.
  intros Hlf Hparen. unfold re_feat. rewrite run_alt. apply head_app_Some.
  unfold re_feat_closed. rewrite run_cat_bind.
  change (run (Opt ?r) ?s) with (run r s ++ [s]).
  change (str "(with" ++ mid ++ chr ")" :: post)
    with (chr "(" :: str "with" ++ mid ++ chr ")" :: post) at 1.
  rewrite run_paren, N.eqb_refl. cbn [app]. rewrite bind_cons.
  replace (run (re_marker_with <.> Star Dot <.> One (Lit (chr ")")))
             (str "with" ++ mid ++ chr ")" :: post)) with (@nil pystr) by (by vm_compute).
  cbn [app]. rewrite bind_singleton, run_cat_bind, run_marker_with_paren, bind_singleton.
  rewrite run_cat_bind. by apply star_dot_last_paren.
Qed.

(** X16.  The marker [(with] is removed with its clause when a closing
    parenthesis follows on the same line, again through the last one: when
    no [(], [f] or [p] stands in front of it, the text in front is kept and
    everything from [(with] to the last closing parenthesis is deleted. *)
Theorem re_sub_feat_with_closed p mid post :
  Forall (fun x => x ∉ [chr "("; chr "f"; chr "p"]) p ->
  LF ∉ mid -> chr ")" ∉ post ->
  re_sub re_feat [] (p ++ str "(with" ++ mid ++ chr ")" :: post)
  = p ++ re_sub re_feat [] post.
Proof.
  intros Hp Hlf Hparen. unfold re_sub. rewrite scan_prefix.
  2: { intros p1 x p2 ->. apply Forall_app in Hp as [_ [Hx _]%Forall_cons].
       destruct (match_len re_feat _) as [k|] eqn:E; [|done].
       apply match_len_Some in E as (rest & Hrest%head_Some_elem_of & _).
       by apply run_feat_first in Hrest. }
  f_equal. pose proof (head_run_feat_with mid post Hlf Hparen) as Hhead.
  assert (str "(with" ++ mid ++ chr ")" :: post
          = (chr "(" :: str "with" ++ mid ++ [chr ")"]) ++ post) as Htail.
  { change (str "(with") with (chr "(" :: str "with"). simpl.
    rewrite <- ?app_assoc. simpl. by rewrite <- ?app_assoc. }
  rewrite Htail in *. cbn [app] in *.
  rewrite (scan_hit _ _ (chr "(") ((str "with" ++ mid ++ [chr ")"]) ++ post)
             (length (str "with" ++ mid ++ [chr ")"]))).
  - by rewrite drop_app_length.
  - unfold match_len.
    destruct (run re_feat (chr "(" :: (str "with" ++ mid ++ [chr ")"]) ++ post))
      as [|rest l]; [done|].
    injection Hhead as ->. f_equal. simpl. rewrite length_app. lia.
Qed.

Lemma re_sub_feat_with_closed_witness :
  Forall (fun x => x ∉ [chr "("; chr "f"; chr "p"]) (str "song ")
  /\ (LF ∉ str " a) (b") /\ (chr ")" ∉ str " x")
  /\ re_sub re_feat [] (str "song (with a) (b) x") = str "song  x".
Proof.
  assert (H1 : Forall (fun x => x ∉ [chr "("; chr "f"; chr "p"]) (str "song "))
    by (decide_by_compute).
  assert (H2 : LF ∉ str " a) (b") by (decide_by_compute).
  assert (H3 : chr ")" ∉ str " x") by (decide_by_compute).
  exact (conj H1 (conj H2 (conj H3
           (re_sub_feat_with_closed (str "song ") (str " a) (b") (str " x") H1 H2 H3)))).
Defined.

(** ** The matcher *)

(** The artist string built from lowercased names is the lowercased artist
    string. *)
Lemma join_lower names acc :
  fold_left (fun result name => result ++ name ++ str " ") (map lower names) (lower acc)
  = lower (fold_left (fun result name => result ++ name ++ str " ") names acc).
Proof.
  revert acc. induction names as [|name names IH]; intros acc; [done|].
  simpl. rewrite <- IH. f_equal. unfold lower. by rewrite !map_app.
Qed.

Lemma join_ascii names acc :
  forallb is_ascii acc = true -> forallb (forallb is_ascii) names = true ->
  forallb is_ascii (fold_left (fun result name => result ++ name ++ str " ") names acc)
  = true.
Proof.
  revert acc. induction names as [|name names IH]; intros acc Hacc Hnames; [done|].
  simpl in *. apply andb_prop in Hnames as [Hname Hnames]. apply IH; [|done].
  rewrite !forallb_app, Hacc, Hname. done.
Qed.

Lemma get_artists_lower lib names :
  forallb (forallb is_ascii) names = true ->
  get_artists lib (map lower names) = get_artists lib names.
Proof.
  intros Hnames. unfold get_artists.
  change (@nil N) with (lower []) at 1. rewrite join_lower.
  apply simplify_lower. by apply join_ascii.
Qed.

(** X18.  The matcher does not see the case of the letters: for tracks whose
    title, artist names and album title are ASCII text, the verdict of
    [match] is the same when those of the candidate, of the source track, or
    of both are put in lowercase. *)
Theorem match_ignores_case lib tidal_track spotify_track :
  ascii_tidal_track tidal_track = true ->
  ascii_spotify_track spotify_track = true ->
  match_ lib (lower_tidal_track tidal_track) (lower_spotify_track spotify_track)
  = match_ lib tidal_track spotify_track
  /\ match_ lib (lower_tidal_track tidal_track) spotify_track
     = match_ lib tidal_track spotify_track
  /\ match_ lib tidal_track (lower_spotify_track spotify_track)
     = match_ lib tidal_track spotify_track.
Proof.
  unfold ascii_tidal_track, ascii_spotify_track.
  intros [[Hn Ha]%andb_prop Hl]%andb_prop [[Hn' Ha']%andb_prop Hl']%andb_prop.
  unfold match_, name_match, artist_match, album_match, duration_match.
  cbn [lower_tidal_track lower_spotify_track Tidal.name Tidal.artists Tidal.album
       Tidal.duration Spotify.name Spotify.artists Spotify.album Spotify.duration_ms].
  by rewrite !simplify_lower, !get_artists_lower.
Qed.

Lemma match_ignores_case_witness :
  ascii_tidal_track tidal_a = true
  /\ ascii_spotify_track spotify_long = true
  /\ match_ (constant_scores 100 100 0) (lower_tidal_track tidal_a)
       (lower_spotify_track spotify_long)
     = match_ (constant_scores 100 100 0) tidal_a spotify_long.
Proof.
  assert (H1 : ascii_tidal_track tidal_a = true) by (by vm_compute).
  assert (H2 : ascii_spotify_track spotify_long = true) by (by vm_compute).
  exact (conj H1 (conj H2 (proj1 (match_ignores_case (constant_scores 100 100 0) _ _ H1 H2)))).
Defined.

(** ** The edition pattern *)

(** Scanning up to the first match and over it. *)
Lemma scan_first_match find repl s n k :
  first_match find s = Some n -> find (drop n s) = Some (S k) ->
  scan find repl 0 s = take n s ++ repl ++ scan find repl 0 (drop (n + S k) s).
Proof.
  revert n. induction s as [|c s IH]; intros n; [done|]. cbn [first_match].
  destruct (find (c :: s)) as [[|k']|] eqn:E.
  - destruct (first_match find s) as [n'|] eqn:E'; [|done]. intros [= <-] Hn.
    rewrite scan_miss by (intros ?; congruence). simpl. f_equal. by apply IH.
  - intros [= <-] Hn. simpl in Hn. rewrite E in Hn. injection Hn as ->.
    by rewrite (scan_hit _ _ _ _ _ E).
  - destruct (first_match find s) as [n'|] eqn:E'; [|done]. intros [= <-] Hn.
    rewrite scan_miss by (intros ?; congruence). simpl. f_equal. by apply IH.
Qed.

(** At an edition word the pattern matches that word. *)
Lemma match_len_edition w post :
  w ∈ edition_words -> match_len re_edition (w ++ post) = Some (length w).
Proof.
  intros Hw. unfold edition_words in Hw.
  assert (forall l : list pystr,
            match [post] ++ l with
            | rest :: _ => Some (length (w ++ post) - length rest)%nat
            | [] => None
            end = Some (length w)) as Hhit.
  { intros l. simpl. f_equal. rewrite length_app. lia. }
  unfold match_len, re_edition. rewrite !run_alt. unfold lit.
  repeat (apply elem_of_cons in Hw as [->|Hw]); [| | | | | |by apply elem_of_nil in Hw];
    rewrite run_lit_of;
    repeat match goal with
           | |- context [run (lit_of (str ?a)) (str ?b ++ post)] =>
               replace (run (lit_of (str a)) (str b ++ post)) with (@nil pystr)
                 by (by vm_compute)
           end;
    cbn [app]; first [apply (Hhit []) | apply Hhit].
Qed.

(** X19.  The edition pattern has no word boundary: where its first match
    starts at one of the words "original mix", "extended mix", "radio edit",
    "mixed", "remastered", "version", whether the word stands alone or
    inside a longer word, exactly that word is deleted, what stands in front
    is kept and the pattern goes on with the rest. *)
Theorem re_sub_edition_inside p w post :
  w ∈ edition_words ->
  first_match (match_len re_edition) (p ++ w ++ post) = Some (length p) ->
  re_sub re_edition [] (p ++ w ++ post) = p ++ re_sub re_edition [] post.
Proof.
  intros Hw Hfirst. pose proof (match_len_edition w post Hw) as Hlen.
  destruct w as [|c w].
  { unfold edition_words in Hw.
    repeat (apply elem_of_cons in Hw as [Hw|Hw]; [by vm_compute in Hw|]).
    by apply elem_of_nil in Hw. }
  unfold re_sub. rewrite (scan_first_match _ _ _ _ (length w) Hfirst).
  - rewrite take_app_length. f_equal.
    replace (length p + S (length w))%nat with (length (p ++ c :: w)) by
      (rewrite length_app; simpl; lia).
    by rewrite (app_assoc p (c :: w) post), drop_app_length.
  - by rewrite drop_app_length.
Qed.

Lemma re_sub_edition_inside_witness :
  (str "mixed" ∈ edition_words)
  /\ first_match (match_len re_edition) (str "re" ++ str "mixed" ++ str " up")
     = Some (length (str "re"))
  /\ re_sub re_edition [] (str "remixed up") = str "re up".
Proof.
  assert (H1 : str "mixed" ∈ edition_words) by (decide_by_compute).
  assert (H2 : first_match (match_len re_edition) (str "re" ++ str "mixed" ++ str " up")
               = Some (length (str "re"))) by (by vm_compute).
  exact (conj H1 (conj H2 (re_sub_edition_inside (str "re") (str "mixed") (str " up") H1 H2))).
Defined.

(** ** The search query *)

(** X20.  The query [tidal_search] sends to the destination service is made
    of lowercase letters, digits and the characters [$], [!], [&], [?], [.],
    ['], [-] and space only, whatever the title and the artist names. *)
Theorem search_query_charset lib spotify_track query :
  search_query lib spotify_track = Ok query ->
  Forall (fun c => 97 <= c <= 122 \/ 48 <= c <= 57 \/ c ∈ str "$!&?.'- ") query.
Proof.
  intros Hq. apply Forall_forall. intros c Hc. apply allowed_char_explicit.
  assert (forallb allowed_char query = true) as Hquery.
  { unfold search_query in Hq.
    destruct (length (simplify (table lib) (Spotify.name spotify_track)) <=? 25)%nat.
    - destruct (Spotify.artists spotify_track) as [|artist others]; [done|].
      assert (query = simplify (table lib) artist ++ str " "
                      ++ simplify (table lib) (Spotify.name spotify_track)) as ->
        by congruence.
      rewrite !forallb_app, !simplify_allowed. reflexivity.
    - injection Hq as <-. apply simplify_allowed. }
  rewrite forallb_forall in Hquery. by apply Hquery, list_elem_of_In.
Qed.

Lemma search_query_charset_witness :
  search_query (constant_scores 0 0 0) spotify_a = Ok (str "beyonce yes")
  /\ Forall (fun c => 97 <= c <= 122 \/ 48 <= c <= 57 \/ c ∈ str "$!&?.'- ")
       (str "beyonce yes").
Proof.
  assert (H : search_query (constant_scores 0 0 0) spotify_a = Ok (str "beyonce yes"))
    by (by vm_compute).
  exact (conj H (search_query_charset _ _ _ H)).
Defined.

(** ** The exceptions of the resolution phase *)

(** An exception kept by the pool was raised by a task that completed. *)
Lemma pool_failure_sound {A B} (f : A -> result B) xs l e :
  (pool_state f xs l).2 = Some e -> exists i x, i ∈ l /\ xs !! i = Some x /\ f x = Raise e.
Proof.
  induction l as [|j l IH] using rev_ind; [done|].
  rewrite pool_state_snoc. unfold deliver.
  assert ((pool_state f xs l).2 = Some e ->
          exists i x, i ∈ l ++ [j] /\ xs !! i = Some x /\ f x = Raise e) as IH'.
  { intros (i & x & ? & ? & ?)%IH. exists i, x. rewrite elem_of_app. auto. }
  destruct (xs !! j) as [y|] eqn:Hj; [|done].
  destruct (f y) as [b|e'] eqn:Hy; simpl; [done|].
  destruct (pool_state f xs l).2 as [e0|]; simpl; [done|].
  intros [= <-]. exists j, y. rewrite elem_of_app, list_elem_of_singleton. auto.
Qed.

(** X21.  [call_async] raises nothing of its own: an exception it raises was
    raised by the resolution of one of the source tracks, either by the
    construction of its query ([artists[0]] on a track without artist) or
    by the search call for that query.  In particular the assignments
    [results[index] = result] are never out of range. *)
Theorem call_async_raises_search_error lib spotify_tracks tidal_session completion e :
  call_async lib spotify_tracks tidal_session completion = Some (Raise e) ->
  exists t, t ∈ spotify_tracks
    /\ tidal_search lib t tidal_session = Raise e
    /\ (search_query lib t = Raise e
        \/ exists query, search_query lib t = Ok query
                         /\ search tidal_session query = Raise e).
Proof.
  intros Hcall.
  destruct (pool_map (fun t => tidal_search lib t tidal_session) spotify_tracks completion)
    as [[outcomes|e']|] eqn:Hpool.
  - apply call_async_pool in Hpool. congruence.
  - rewrite (call_async_Raise _ _ _ _ _ Hpool) in Hcall. injection Hcall as ->.
    unfold pool_map in Hpool. destruct (forallb _ _); [|done].
    destruct (pool_state _ spotify_tracks completion).2 as [e0|] eqn:Hst.
    + injection Hpool as ->. apply pool_failure_sound in Hst as (i & t & _ & Ht & He).
      exists t. split; [by eapply list_elem_of_lookup_2|]. split; [done|].
      unfold tidal_search in He. destruct (search_query lib t) as [query|e1]; simpl in He.
      * right. exists query. split; [done|].
        destruct (search tidal_session query); simpl in He; congruence.
      * left. congruence.
    + by destruct (mapM id _).
  - unfold call_async in Hcall. by rewrite Hpool in Hcall.
Qed.

Lemma call_async_raises_search_error_witness :
  call_async (constant_scores 100 100 100) [spotify_a; spotify_b] (failing_search [])
    [0; 1]%nat = Some (Raise (HTTPError 500))
  /\ exists t, t ∈ [spotify_a; spotify_b]
       /\ tidal_search (constant_scores 100 100 100) t (failing_search [])
          = Raise (HTTPError 500).
Proof.
  assert (H : call_async (constant_scores 100 100 100) [spotify_a; spotify_b]
                (failing_search []) [0; 1]%nat = Some (Raise (HTTPError 500)))
    by (by vm_compute).
  destruct (call_async_raises_search_error _ _ _ _ _ H) as (t & Ht & He & _).
  exact (conj H (ex_intro _ t (conj Ht He))).
Defined.
